(** * TfidfRetrieverAgent: a shallow embedding of
      parlai/agents/ir_baseline/ir_retrieve.py

    The Python class is embedded as functions over an explicit state:
    the instance dictionary of one agent plus the objects it shares with
    the other agents (the multiprocessing [Value], [Lock] and [Queue]s and
    the sqlite file).  A Python exception leaves every mutation done before
    it in place, so the monad threads the state through failures too. *)

From Stdlib Require Import Ascii String List Reals Lra Lia Permutation Sorted.
From stdpp Require Import gmap strings list fin_maps.
Import ListNotations.
Local Open Scope string_scope.
Local Open Scope list_scope.

(** ** Exceptions and outcomes *)

Inductive exn : Type :=
| AttributeError (attr : string)
| RuntimeError (msg : string)
| ProgrammingError (msg : string)
| OperationalError (msg : string)
| IntegrityError (msg : string)
| IndexError
| KeyError
| ValueError (msg : string)
| TypeError (msg : string)
| FileNotFoundError.

(** [Block]: the call waits on a lock or on an empty queue that nothing in
    the sequential run will ever release or fill. *)
Inductive outcome (A : Type) : Type :=
| Ret (a : A)
| Raise (e : exn)
| Block.
Arguments Ret {A} a.
Arguments Raise {A} e.
Arguments Block {A}.

(** ** The vocabulary: [self.all_tokens], a dict token => id *)

(** The argument of [_token2id] is a Python object; the method tells a
    string from an int at run time. *)
Inductive pyobj : Type :=
| PyStr (s : string)
| PyInt (n : nat).

(** ** SQL values, statements and the sqlite file *)

Inductive sqlval : Type :=
| SqlInt (n : nat)
| SqlText (s : string)
| SqlNull.

(** A table: its column names, first column the primary key, and its rows. *)
Record table : Type := Table {
  columns : list string;
  rows : list (list sqlval)
}.

(** [INSERT INTO <tbl> (<cols>) VALUES(?,...,?)] with one placeholder per
    listed value. *)
Record insert_stmt : Type := Insert {
  ins_table : string;
  ins_columns : list string;
  ins_placeholders : nat
}.

(** [SELECT <col> FROM <tbl> WHERE <key>=?] *)
Record select_stmt : Type := Select {
  sel_column : string;
  sel_table : string;
  sel_where : string
}.

Definition DOC_TABLE_NAME : string := "document".
Definition BUFFER_SIZE : nat := 1000.

(** [FACT_QUERY = 'INSERT INTO %s (id,x,y) VALUES(?,?,?)' % DOC_TABLE_NAME] *)
Definition FACT_QUERY : insert_stmt :=
  Insert DOC_TABLE_NAME ["id"; "x"; "y"] 3.

(** The statement built in [retrieve]:
    ["SELECT fact FROM %s WHERE fact_id=?" % self.DOC_TABLE_NAME]. *)
Definition LOOKUP_QUERY : select_stmt :=
  Select "fact" DOC_TABLE_NAME "fact_id".

(** The table made by [__init__] for a new database file:
    [CREATE TABLE document (id INTEGER PRIMARY KEY, x TEXT, y TEXT DEFAULT NULL)]. *)
Definition CREATE_TABLE : table := Table ["id"; "x"; "y"] [].

(** ** Sparse matrices

    A scipy sparse matrix is embedded by its shape and its stored cells; a
    cell that is not stored reads as zero. *)
Record sparse (A : Type) : Type := Sparse {
  shape : nat * nat;
  cells : gmap (nat * nat) A
}.
Arguments Sparse {A} shape cells.
Arguments shape {A} s.
Arguments cells {A} s.

(** ** Messages on a child's queue

    Python values a child puts on its [comm_queue]: the vocabulary dict, a
    list of lists, the string ['EOD'], or anything else. *)
Inductive message : Type :=
| MsgDict (d : gmap string nat)
| MsgList (l : list (list nat))
| MsgStr (s : string)
| MsgOther.

Definition END_OF_DATA : string := "EOD".

(** ** State *)

(** Objects shared by the primary agent and its children: the
    [multiprocessing.Value] counting documents, the [Lock] (true when
    held), the queue announcing children that are done, the queues handed
    out by [share], addressed by their position, the sqlite file, and the
    two files [save] writes.  The counter is a C int; runs of 2^31
    documents or more are outside the embedding. *)
Record shared : Type := Shared {
  num_docs : nat;
  db_lock : bool;
  shared_queue : list nat;
  queues : list (list message);
  db : gmap string table;
  token_file : option (gmap string nat);
  retriever_file : option (sparse nat)
}.

(** The persistent collections of one agent. *)
Record index : Type := Index {
  all_tokens : gmap string nat;
  freq_token : list nat;
  freq_fact_id : list nat;
  freq_freq : list nat
}.

(** Attributes that exist only once something assigned them; [hasattr] is
    [is_Some], [del] needs [Some]. *)
Record caches : Type := Caches {
  count_matrix : option (sparse nat);
  tfidfs : option (sparse R);
  doc_freqs : option (list nat);
  num_tokens : option nat
}.

(** What [__init__] and [share] set up: a child holds [comm_queue] and
    [child_id], the primary holds [comm_queues]; [child_token_map] appears
    when [_process_child_data] runs. *)
Record links : Type := Links {
  comm_queue : option nat;
  child_id : option nat;
  comm_queues : option (list nat);
  child_token_map : option (list (gmap nat nat))
}.

Record agent : Type := Agent {
  observation : gmap string string;
  idx : index;
  insert_wait_list : list (nat * string);
  cnt : nat;
  cache : caches;
  link : links
}.

Record world : Type := World {
  sh : shared;
  me : agent
}.

(** *** Field updates *)

Definition set_num_docs (n : nat) (s : shared) : shared :=
  Shared n (db_lock s) (shared_queue s) (queues s) (db s) (token_file s) (retriever_file s).
Definition set_db_lock (b : bool) (s : shared) : shared :=
  Shared (num_docs s) b (shared_queue s) (queues s) (db s) (token_file s) (retriever_file s).
Definition set_shared_queue (q : list nat) (s : shared) : shared :=
  Shared (num_docs s) (db_lock s) q (queues s) (db s) (token_file s) (retriever_file s).
Definition set_queues (q : list (list message)) (s : shared) : shared :=
  Shared (num_docs s) (db_lock s) (shared_queue s) q (db s) (token_file s) (retriever_file s).
Definition set_db (d : gmap string table) (s : shared) : shared :=
  Shared (num_docs s) (db_lock s) (shared_queue s) (queues s) d (token_file s) (retriever_file s).
Definition set_token_file (f : option (gmap string nat)) (s : shared) : shared :=
  Shared (num_docs s) (db_lock s) (shared_queue s) (queues s) (db s) f (retriever_file s).
Definition set_retriever_file (f : option (sparse nat)) (s : shared) : shared :=
  Shared (num_docs s) (db_lock s) (shared_queue s) (queues s) (db s) (token_file s) f.

Definition set_all_tokens (v : gmap string nat) (i : index) : index :=
  Index v (freq_token i) (freq_fact_id i) (freq_freq i).
Definition set_freq_token (l : list nat) (i : index) : index :=
  Index (all_tokens i) l (freq_fact_id i) (freq_freq i).
Definition set_freq_fact_id (l : list nat) (i : index) : index :=
  Index (all_tokens i) (freq_token i) l (freq_freq i).
Definition set_freq_freq (l : list nat) (i : index) : index :=
  Index (all_tokens i) (freq_token i) (freq_fact_id i) l.

Definition set_count_matrix (m : option (sparse nat)) (c : caches) : caches :=
  Caches m (tfidfs c) (doc_freqs c) (num_tokens c).
Definition set_tfidfs (m : option (sparse R)) (c : caches) : caches :=
  Caches (count_matrix c) m (doc_freqs c) (num_tokens c).
Definition set_doc_freqs (m : option (list nat)) (c : caches) : caches :=
  Caches (count_matrix c) (tfidfs c) m (num_tokens c).
Definition set_num_tokens (m : option nat) (c : caches) : caches :=
  Caches (count_matrix c) (tfidfs c) (doc_freqs c) m.

Definition set_comm_queues (q : option (list nat)) (l : links) : links :=
  Links (comm_queue l) (child_id l) q (child_token_map l).
Definition set_child_token_map (m : option (list (gmap nat nat))) (l : links) : links :=
  Links (comm_queue l) (child_id l) (comm_queues l) m.

Definition set_idx (f : index → index) (a : agent) : agent :=
  Agent (observation a) (f (idx a)) (insert_wait_list a) (cnt a) (cache a) (link a).
Definition set_insert_wait_list (l : list (nat * string)) (a : agent) : agent :=
  Agent (observation a) (idx a) l (cnt a) (cache a) (link a).
Definition set_cnt (n : nat) (a : agent) : agent :=
  Agent (observation a) (idx a) (insert_wait_list a) n (cache a) (link a).
Definition set_cache (f : caches → caches) (a : agent) : agent :=
  Agent (observation a) (idx a) (insert_wait_list a) (cnt a) (f (cache a)) (link a).
Definition set_link (f : links → links) (a : agent) : agent :=
  Agent (observation a) (idx a) (insert_wait_list a) (cnt a) (cache a) (f (link a)).
Definition set_observation (o : gmap string string) (a : agent) : agent :=
  Agent o (idx a) (insert_wait_list a) (cnt a) (cache a) (link a).

(** ** The monad: state that survives exceptions *)

Definition M (A : Type) : Type := world → outcome A * world.

#[export] Instance M_ret : MRet M := λ A a w, (Ret a, w).
#[export] Instance M_bind : MBind M := λ A B f c w,
  match c w with
  | (Ret a, w') => f a w'
  | (Raise e, w') => (Raise e, w')
  | (Block, w') => (Block, w')
  end.

Definition raise {A : Type} (e : exn) : M A := λ w, (Raise e, w).
Definition block {A : Type} : M A := λ w, (Block, w).
Definition get_me : M agent := λ w, (Ret (me w), w).
Definition get_sh : M shared := λ w, (Ret (sh w), w).
Definition upd_me (f : agent → agent) : M unit := λ w, (Ret tt, World (sh w) (f (me w))).
Definition upd_sh (f : shared → shared) : M unit := λ w, (Ret tt, World (f (sh w)) (me w)).

(** A [for] loop over a Python sequence. *)
Fixpoint for_each {A : Type} (l : list A) (body : A → M unit) : M unit :=
  match l with
  | [] => mret tt
  | x :: l' => body x ;; for_each l' body
  end.

(** ** sqlite, as far as the class uses it *)

Definition has_column (t : table) (c : string) : bool :=
  bool_decide (c ∈ columns t).

(** The value a row of an [INSERT] gives to column [c]: the parameter
    bound to it, or NULL when the statement does not list [c]. *)
Fixpoint bound_value (cols : list string) (params : list sqlval) (c : string) : sqlval :=
  match cols, params with
  | c' :: cols', p :: params' =>
      if String.eqb c c' then p else bound_value cols' params' c
  | _, _ => SqlNull
  end.

Definition primary_key (r : list sqlval) : sqlval := hd SqlNull r.

Definition sqlval_eqb (a b : sqlval) : bool :=
  match a, b with
  | SqlInt m, SqlInt n => Nat.eqb m n
  | SqlText s, SqlText t => String.eqb s t
  | _, _ => false
  end.

(** One row of [executemany]: the number of supplied bindings must be the
    number of placeholders, and the primary key must be new. *)
Definition insert_row (stmt : insert_stmt) (t : table) (params : list sqlval)
  : outcome table :=
  if negb (Nat.eqb (length params) (ins_placeholders stmt)) then
    Raise (ProgrammingError "Incorrect number of bindings supplied")
  else
    let r := map (bound_value (ins_columns stmt) params) (columns t) in
    if existsb (λ r', sqlval_eqb (primary_key r') (primary_key r)) (rows t) then
      Raise (IntegrityError "UNIQUE constraint failed")
    else Ret (Table (columns t) (rows t ++ [r])).

Fixpoint insert_rows (stmt : insert_stmt) (t : table) (l : list (list sqlval))
  : outcome table :=
  match l with
  | [] => Ret t
  | p :: l' =>
      match insert_row stmt t p with
      | Ret t' => insert_rows stmt t' l'
      | Raise e => Raise e
      | Block => Block
      end
  end.

(** [with self.cursor.connection: self.cursor.executemany(stmt, l)]: the
    statement is compiled against the table, then every row is bound and
    inserted; the transaction commits only if all of them went in. *)
Definition executemany (stmt : insert_stmt) (l : list (list sqlval)) : M unit :=
  s ← get_sh;
  match db s !! ins_table stmt with
  | None => raise (OperationalError "no such table")
  | Some t =>
      if negb (forallb (has_column t) (ins_columns stmt)) then
        raise (OperationalError "no such column")
      else
        match insert_rows stmt t l with
        | Ret t' => upd_sh (set_db (<[ins_table stmt := t']> (db s)))
        | Raise e => raise e
        | Block => block
        end
  end.

(** The position of a column in a table. *)
Fixpoint column_index (cols : list string) (c : string) : option nat :=
  match cols with
  | [] => None
  | c' :: cols' =>
      if String.eqb c c' then Some 0 else S <$> column_index cols' c
  end.

(** [self.cursor.execute(stmt, (param,)); self.cursor.fetchall()]: the
    selected column of the rows whose key column equals the parameter.
    A [str] of an id compared with an integer column is converted by the
    column's affinity, so the parameter is carried as the id itself. *)
Definition execute_fetchall (stmt : select_stmt) (param : sqlval)
  : M (list (list sqlval)) :=
  s ← get_sh;
  match db s !! sel_table stmt with
  | None => raise (OperationalError "no such table")
  | Some t =>
      match column_index (columns t) (sel_column stmt),
            column_index (columns t) (sel_where stmt) with
      | Some ic, Some iw =>
          mret (map (λ r, [nth ic r SqlNull])
                  (filter (λ r, sqlval_eqb (nth iw r SqlNull) param = true) (rows t)))
      | _, _ => raise (OperationalError "no such column")
      end
  end.

(** ** The lock *)

(** [self.db_lock.acquire(block)] *)
Definition acquire (blocking : bool) : M bool :=
  s ← get_sh;
  if db_lock s then (if blocking then block else mret false)
  else upd_sh (set_db_lock true) ;; mret true.

(** [self.db_lock.release()] *)
Definition release : M unit := upd_sh (set_db_lock false).

(** ** numpy helpers *)

(** [np.unique(l, return_counts=True)]: the distinct elements in
    increasing order, each with its number of occurrences. *)
Fixpoint count_in {A : Type} (eqb ltb : A → A → bool) (x : A) (l : list (A * nat))
  : list (A * nat) :=
  match l with
  | [] => [(x, 1)]
  | (y, c) :: l' =>
      if eqb x y then (y, S c) :: l'
      else if ltb x y then (x, 1) :: (y, c) :: l'
      else (y, c) :: count_in eqb ltb x l'
  end.

Definition np_unique {A : Type} (eqb ltb : A → A → bool) (l : list A) : list (A * nat) :=
  fold_left (λ acc x, count_in eqb ltb x acc) l [].

Definition unique_tokens (l : list string) : list (string * nat) :=
  np_unique String.eqb String.ltb l.

Definition unique_ids (l : list nat) : list (nat * nat) :=
  np_unique Nat.eqb Nat.ltb l.

(** [a[idx]] for an integer index array: every index must be in range. *)
Definition take_idx {A : Type} (a : list A) (idx : list nat) : option (list A) :=
  mapM (λ i, a !! i) idx.

(** ** Building the matrices *)

Definition cell (m : sparse nat) (t d : nat) : nat := default 0 (cells m !! (t, d)).
Definition rcell (m : sparse R) (t d : nat) : R := default 0%R (cells m !! (t, d)).

(** Adding one (row, column, value) entry; an entry for a cell that is
    already stored is summed into it. *)
Definition add_entry (m : gmap (nat * nat) nat) (e : nat * nat * nat)
  : gmap (nat * nat) nat :=
  let '(r, c, v) := e in <[(r, c) := default 0 (m !! (r, c)) + v]> m.

Definition zip3 (a b c : list nat) : list (nat * nat * nat) :=
  zip (zip a b) c.

(** [sp.csr_matrix((data, (row, col)), shape=shp)] followed by
    [sum_duplicates()]: the three sequences must have one length and every
    index must lie inside the shape. *)
Definition csr_matrix (data row col : list nat) (shp : nat * nat)
  : outcome (sparse nat) :=
  if negb (Nat.eqb (length row) (length data) && Nat.eqb (length col) (length data)) then
    Raise (ValueError "row, column, and data array must all be the same length")
  else if negb (forallb (λ r, Nat.ltb r (fst shp)) row) then
    Raise (ValueError "row index exceeds matrix dimensions")
  else if negb (forallb (λ c, Nat.ltb c (snd shp)) col) then
    Raise (ValueError "column index exceeds matrix dimensions")
  else Ret (Sparse shp (fold_left add_entry (zip3 row col data) ∅)).

(** [(count_matrix > 0).astype(int).sum(1)] at row [t]: in how many
    columns the row has a positive count. *)
Definition doc_count (m : sparse nat) (t : nat) : nat :=
  length (filter (λ d, 0 < cell m t d) (seq 0 (snd (shape m)))).

(** [np.log((D - Ns + 0.5) / (Ns + 0.5))], then [idfs[idfs < 0] = 0]. *)
Definition raw_idf (D Nt : nat) : R :=
  ln ((INR D - INR Nt + 0.5) / (INR Nt + 0.5)).

Definition clamp (x : R) : R := if Rlt_dec x 0 then 0%R else x.

Definition idf (D Nt : nat) : R := clamp (raw_idf D Nt).

(** [np.log1p] of a count. *)
Definition log1p (c : nat) : R := ln (1 + INR c).

(** [binary.sum(1)], a column with one entry per row of the matrix. *)
Definition row_sums (m : sparse nat) : list nat :=
  map (doc_count m) (seq 0 (fst (shape m))).

(** [np.array(column).squeeze()] drops every axis of length one: a column of
    one entry becomes a zero-dimensional array, and arithmetic on it gives
    numpy scalars. *)
Inductive squeezed (A : Type) : Type :=
| Scalar (x : A)
| Vector (l : list A).
Arguments Scalar {A} x.
Arguments Vector {A} l.

Definition squeeze {A : Type} (column : list A) : squeezed A :=
  match column with
  | [x] => Scalar x
  | _ => Vector column
  end.

Definition elementwise {A B : Type} (f : A → B) (a : squeezed A) : squeezed B :=
  match a with
  | Scalar x => Scalar (f x)
  | Vector l => Vector (map f l)
  end.

(** [idfs[idfs < 0] = 0]: an item assignment, which an array takes and a
    numpy scalar does not. *)
Definition clamp_negative (idfs : squeezed R) : outcome (list R) :=
  match idfs with
  | Scalar _ =>
      Raise (TypeError "'numpy.float64' object does not support item assignment")
  | Vector l => Ret (map clamp l)
  end.

(** [count_matrix.log1p()] *)
Definition log1p_matrix (m : sparse nat) : sparse R :=
  Sparse (shape m) (log1p <$> cells m).

(** [sp.diags(idfs, 0).dot(tfs)]: row [t] of [tfs] times [idfs[t]]. *)
Definition scale_rows (idfs : list R) (tfs : sparse R) : sparse R :=
  Sparse (shape tfs)
    (map_imap (λ (k : nat * nat) (v : R), Some (nth (fst k) idfs 0 * v)%R) (cells tfs)).

(** The tf-idf matrix of a count matrix whose row sums stay an array. *)
Definition tfidf_of (m : sparse nat) : sparse R :=
  scale_rows (map (idf (snd (shape m))) (row_sums m)) (log1p_matrix m).

(** [spvec * tfidfs] for a one-row [spvec] given by its column indices and
    data: the inner dimensions must agree; a document gets an entry when a
    stored cell of one of the query's tokens lies in its column.  The
    result is returned as [(res.indices, res.data)]. *)
Definition query_weight (q : list (nat * R)) (t : nat) : option R :=
  (λ p, snd (snd p)) <$> list_find (λ p : nat * R, fst p = t) q.

Definition add_score (q : list (nat * R)) (acc : gmap nat R) (k : nat * nat) (v : R)
  : gmap nat R :=
  match query_weight q (fst k) with
  | Some w => <[snd k := (default 0 (acc !! snd k) + w * v)%R]> acc
  | None => acc
  end.

Definition row_times (q : list (nat * R)) (ncols : nat) (m : sparse R)
  : outcome (list nat * list R) :=
  if negb (Nat.eqb ncols (fst (shape m))) then Raise (ValueError "dimension mismatch")
  else
    let res := map_to_list
                 (map_fold (λ k v acc, add_score q acc k v) (∅ : gmap nat R) (cells m)) in
    Ret (map fst res, map snd res).

(** ** Selecting the best results (the end of [retrieve])

    [argsort] and [argpartition] stand for numpy's functions of those
    names; how they order equal keys is theirs to choose.
    [sort_positions] is the [if]/[else] that computes [o_sort]. *)
Definition sort_positions (argsort : list R → list nat)
    (argpartition : list R → nat → list nat)
    (data : list R) (max_results : nat) : option (list nat) :=
  let neg := map Ropp data in
  if Nat.leb (length data) max_results then Some (argsort neg)
  else
    let o := take max_results (argpartition neg max_results) in
    sub ← take_idx neg o;
    take_idx o (argsort sub).

Definition select_top (argsort : list R → list nat)
    (argpartition : list R → nat → list nat)
    (indices : list nat) (data : list R) (max_results : nat)
  : option (list R * list nat) :=
  o_sort ← sort_positions argsort argpartition data max_results;
  doc_scores ← take_idx data o_sort;
  doc_ids ← take_idx indices o_sort;
  Some (doc_scores, doc_ids).

(** ** Methods of [TfidfRetrieverAgent] *)

Definition lift {A : Type} (o : outcome A) : M A := λ w, (o, w).

Definition or_raise {A : Type} (e : exn) (o : option A) : M A :=
  match o with
  | Some a => mret a
  | None => raise e
  end.

Fixpoint map_M {A B : Type} (f : A → M B) (l : list A) : M (list B) :=
  match l with
  | [] => mret []
  | x :: l' => y ← f x; ys ← map_M f l'; mret (y :: ys)
  end.

(** Modelled from the spec: the base class [Agent] (parlai.core.agents) is
    not among the sources.  The spec gives the agent its whole surface
    (section 6: ingest, shutdown, retrieve, save, load) and no helper named
    [len] or [start_data_collection], and the class body defines neither:
    the only [def start_data_collection] of the file is commented out, and
    every other length is taken with the builtin [len(...)].  So looking
    either name up on [self] raises [AttributeError] before any call is
    made. *)
Definition undefined_method {A : Type} (name : string) : M A :=
  raise (AttributeError name).

(** [print_info] only writes to the log. *)
Definition print_info (msg : string) : M unit := mret tt.

Definition _token2id (token : pyobj) : M nat :=
  match token with
  | PyInt _ => raise (RuntimeError "surprise")
  | PyStr s =>
      a ← get_me;
      match all_tokens (idx a) !! s with
      | Some i => mret i
      | None =>
          let token_id := size (all_tokens (idx a)) in
          upd_me (set_idx (set_all_tokens (<[s := token_id]> (all_tokens (idx a))))) ;;
          mret token_id
      end
  end.

(** The document counter is a [multiprocessing.Value('i', 0)], a 32-bit C
    int: storing a number in it keeps the low 32 bits, so that
    [self.num_docs.value += 1] at [INT_MAX] gives the most negative int.
    The embedding holds the counter as a natural number and follows the
    code while the counter is below [INT_MAX], where the increment is the
    mathematical one; the properties of the ids say so. *)
Definition INT_MAX : Z := 2147483647.

Definition c_int (z : Z) : Z := ((z + 2 ^ 31) mod 2 ^ 32 - 2 ^ 31)%Z.

Definition below_int_max (n : nat) : Prop := (Z.of_nat n < INT_MAX)%Z.

Definition _new_fact_id : M nat :=
  s ← get_sh;
  let cur_id := num_docs s in
  upd_sh (set_num_docs (cur_id + 1)) ;;
  mret cur_id.

Definition _flush_db_wait_list (blocking : bool) : M unit :=
  a ← get_me;
  match insert_wait_list a with
  | [] => mret tt
  | _ =>
      got ← acquire blocking;
      if got : bool then
        executemany FACT_QUERY
          (map (λ p : nat * string, [SqlInt (fst p); SqlText (snd p)]) (insert_wait_list a)) ;;
        upd_me (set_insert_wait_list []) ;;
        release
      else mret tt
  end.

Definition _insert_fact_without_id (fact : string) : M nat :=
  new_fact_id ← _new_fact_id;
  upd_me (λ a, set_insert_wait_list (insert_wait_list a ++ [(new_fact_id, fact)]) a) ;;
  a ← get_me;
  (if Nat.leb BUFFER_SIZE (length (insert_wait_list a))
   then _flush_db_wait_list false else mret tt) ;;
  mret new_fact_id.

Definition _new_freq (token : pyobj) (fact_id freq : nat) : M unit :=
  i ← _token2id token;
  upd_me (set_idx (λ x, set_freq_token (freq_token x ++ [i]) x)) ;;
  upd_me (set_idx (λ x, set_freq_fact_id (freq_fact_id x ++ [fact_id]) x)) ;;
  upd_me (set_idx (λ x, set_freq_freq (freq_freq x ++ [freq]) x)).

Definition _get_count_matrix : M (sparse nat) :=
  a ← get_me;
  match count_matrix (cache a) with
  | Some m => mret m
  | None =>
      n ← undefined_method "len";
      s ← get_sh;
      m ← lift (csr_matrix (freq_freq (idx a)) (freq_token (idx a)) (freq_fact_id (idx a))
                  (n, num_docs s));
      upd_me (set_cache (set_count_matrix (Some m))) ;;
      mret m
  end.

Definition _get_tfidf_from_count_matrix (m : sparse nat) : M (sparse R) :=
  a ← get_me;
  match tfidfs (cache a) with
  | Some t => mret t
  | None =>
      let Ns := squeeze (row_sums m) in
      let idfs := elementwise (raw_idf (snd (shape m))) Ns in
      idfs ← lift (clamp_negative idfs);
      let t := scale_rows idfs (log1p_matrix m) in
      upd_me (set_cache (set_tfidfs (Some t))) ;;
      mret t
  end.

Definition compute_tfidf : M (sparse R) :=
  m ← _get_count_matrix;
  _get_tfidf_from_count_matrix m.

(** [del self.<attr>] *)
Definition del_attr {A : Type} (name : string) (read : caches → option A)
    (clear : caches → caches) : M unit :=
  a ← get_me;
  match read (cache a) with
  | Some _ => upd_me (set_cache clear)
  | None => raise (AttributeError name)
  end.

Definition save : M unit :=
  a ← get_me;
  upd_sh (set_token_file (Some (all_tokens (idx a)))) ;;
  m ← _get_count_matrix;
  upd_sh (set_retriever_file (Some m)).

Definition load : M unit :=
  s ← get_sh;
  v ← or_raise FileNotFoundError (token_file s);
  upd_me (set_idx (set_all_tokens v)) ;;
  m ← or_raise FileNotFoundError (retriever_file s);
  upd_me (set_cache (set_count_matrix (Some m))) ;;
  upd_sh (set_num_docs (snd (shape m))) ;;
  _get_tfidf_from_count_matrix m ;;
  mret tt.

(** [Queue.put] on the queue with handle [h]. *)
Definition queue_put (h : nat) (msg : message) : M unit :=
  upd_sh (λ s, set_queues (alter (λ q, (q ++ [msg])%list) h (queues s)) s).

Definition share : M (nat * nat) :=
  a ← get_me;
  qs ← or_raise (AttributeError "comm_queues") (comm_queues (link a));
  s ← get_sh;
  let h := length (queues s) in
  upd_sh (set_queues (queues s ++ [[]])) ;;
  upd_me (set_link (set_comm_queues (Some (qs ++ [h])))) ;;
  mret (length qs, h).

(** [self.child_token_map[queue_ind][token_id] = true_token_id] *)
Definition set_child_token (queue_ind token_id true_token_id : nat) : M unit :=
  a ← get_me;
  maps ← or_raise (AttributeError "child_token_map") (child_token_map (link a));
  m ← or_raise IndexError (maps !! queue_ind);
  upd_me (set_link (set_child_token_map
            (Some (<[queue_ind := <[token_id := true_token_id]> m]> maps)))).

(** [self.child_token_map[queue_ind][token_id]] *)
Definition get_child_token (queue_ind token_id : nat) : M nat :=
  a ← get_me;
  maps ← or_raise (AttributeError "child_token_map") (child_token_map (link a));
  m ← or_raise IndexError (maps !! queue_ind);
  or_raise KeyError (m !! token_id).

(** The body of the [while True] loop for one message [data]; [true]
    stands for [break]. *)
Definition process_message (queue_ind : nat) (data : message) : M bool :=
  match data with
  | MsgStr s =>
      if String.eqb s END_OF_DATA then mret true
      else raise (RuntimeError "TfidfRetrieverAgent: wrong data format send from child to master.")
  | MsgDict d =>
      for_each (map_to_list d) (λ item,
        true_token_id ← _token2id (PyStr (fst item));
        set_child_token queue_ind (snd item) true_token_id) ;;
      mret false
  | MsgList l =>
      match l with
      | [token_ids; fact_ids; freqs] =>
          for_each (seq 0 (length token_ids)) (λ ind,
            tid ← or_raise IndexError (token_ids !! ind);
            true_token_id ← get_child_token queue_ind tid;
            fact_id ← or_raise IndexError (fact_ids !! ind);
            freq ← or_raise IndexError (freqs !! ind);
            _new_freq (PyInt true_token_id) fact_id freq) ;;
          mret false
      | _ => raise (ValueError "not enough values to unpack")
      end
  | MsgOther =>
      raise (RuntimeError "TfidfRetrieverAgent: wrong data format send from child to master.")
  end.

(** The [while True] loop over the queue with handle [h], whose content at
    entry is [pending]; each [get] takes the first message off the queue
    and waits when there is none. *)
Fixpoint drain (queue_ind h : nat) (pending : list message) : M unit :=
  match pending with
  | [] => block
  | data :: rest =>
      upd_sh (λ s, set_queues (<[h := rest]> (queues s)) s) ;;
      stop ← process_message queue_ind data;
      if stop : bool then mret tt else drain queue_ind h rest
  end.

Definition _process_child_data : M unit :=
  a ← get_me;
  qs ← or_raise (AttributeError "comm_queues") (comm_queues (link a));
  upd_me (set_link (set_child_token_map (Some (map (λ _, ∅) qs)))) ;;
  for_each qs (λ _,
    s ← get_sh;
    match shared_queue s with
    | [] => block
    | queue_ind :: rest =>
        upd_sh (set_shared_queue rest) ;;
        h ← or_raise IndexError (qs !! queue_ind);
        drain queue_ind h (default [] (queues s !! h))
    end).

(** [self.data_collection_thread.join()]: the thread was started by
    [__init__] and its body, [_process_child_data], is run there, so it has
    ended by the time anything joins it. *)
Definition join : M unit := mret tt.

Definition shutdown : M unit :=
  _flush_db_wait_list true ;;
  a ← get_me;
  match comm_queue (link a) with
  | Some h =>
      cid ← or_raise (AttributeError "child_id") (child_id (link a));
      upd_sh (λ s, set_shared_queue (shared_queue s ++ [cid]) s) ;;
      queue_put h (MsgDict (all_tokens (idx a))) ;;
      queue_put h (MsgList [freq_token (idx a); freq_fact_id (idx a); freq_freq (idx a)]) ;;
      queue_put h (MsgStr END_OF_DATA) ;;
      print_info "all data send."
  | None =>
      undefined_method (A := unit) "start_data_collection" ;;
      join ;;
      save
  end.

(** The loop that ends [retrieve], driven to its end: one SELECT per
    document id, each yielding [fetchall()[0][0]]. *)
Fixpoint fetch_documents (doc_ids : list nat) : M (list sqlval) :=
  match doc_ids with
  | [] => mret []
  | _doc_id :: rest =>
      found ← execute_fetchall LOOKUP_QUERY (SqlInt _doc_id);
      r ← or_raise IndexError (found !! 0);
      x ← or_raise IndexError (r !! 0);
      xs ← fetch_documents rest;
      mret (x :: xs)
  end.

(** [__init__(opt, shared)]: [shared_arg] is what [share] returned, the
    child's index and the handle of its queue.  A new database file gets
    the document table.  When the index file exists [load] is called
    before [self.num_docs] is assigned.  The primary agent makes fresh
    shared objects and starts the collecting thread. *)
Definition blank (l : links) : agent :=
  Agent ∅ (Index ∅ [] [] []) [] 0 (Caches None None None None) l.

Definition init_body (shared_arg : option (nat * nat)) : M unit :=
  s ← get_sh;
  (if bool_decide (is_Some (db s !! DOC_TABLE_NAME)) then mret tt
   else upd_sh (set_db (<[DOC_TABLE_NAME := CREATE_TABLE]> (db s)))) ;;
  (match retriever_file s with
   | Some m =>
       v ← or_raise FileNotFoundError (token_file s);
       upd_me (set_idx (set_all_tokens v)) ;;
       upd_me (set_cache (set_count_matrix (Some m))) ;;
       raise (AttributeError "num_docs")
   | None => mret tt
   end) ;;
  match shared_arg with
  | Some (cid, h) =>
      upd_me (set_link (λ _, Links (Some h) (Some cid) None None))
  | None =>
      upd_sh (set_shared_queue []) ;;
      upd_sh (set_num_docs 0) ;;
      upd_sh (set_db_lock false) ;;
      upd_me (set_link (set_comm_queues (Some []))) ;;
      _process_child_data
  end.

Definition __init__ (shared_arg : option (nat * nat)) (s : shared)
  : outcome agent * shared :=
  match init_body shared_arg (World s (blank (Links None None None None))) with
  | (Ret _, w) => (Ret (me w), sh w)
  | (Raise e, w) => (Raise e, sh w)
  | (Block, w) => (Block, sh w)
  end.

(** ** Concrete stand-ins for the external functions

    A tokenizer that splits at spaces, and an insertion sort of positions
    by key; they instantiate the parameters below in the examples. *)

Fixpoint split_spaces (acc : string) (s : string) : list string :=
  match s with
  | EmptyString => if String.eqb acc "" then [] else [acc]
  | String c s' =>
      if Ascii.eqb c " "%char
      then (if String.eqb acc "" then [] else [acc]) ++ split_spaces "" s'
      else split_spaces (acc +:+ String c EmptyString) s'
  end.

Definition words (s : string) : list string := split_spaces "" s.

Definition Rleb (x y : R) : bool := if Rle_dec x y then true else false.

Fixpoint insert_by (keys : list R) (i : nat) (l : list nat) : list nat :=
  match l with
  | [] => [i]
  | j :: l' =>
      if Rleb (nth i keys 0%R) (nth j keys 0%R) then i :: j :: l'
      else j :: insert_by keys i l'
  end.

Definition insertion_argsort (keys : list R) : list nat :=
  fold_right (insert_by keys) [] (seq 0 (length keys)).

Definition sort_argpartition (keys : list R) (kth : nat) : list nat :=
  insertion_argsort keys.

(** ** What [np.unique] returns *)

(** Keys in strictly increasing order. *)
Definition increasing {A : Type} (ltb : A → A → bool) (acc : list (A * nat)) : Prop :=
  StronglySorted (λ p q, ltb (fst p) (fst q) = true) acc.

(** How often [x] occurs in [l]. *)
Definition occurrences {A : Type} (eqb : A → A → bool) (x : A) (l : list A) : nat :=
  length (List.filter (eqb x) l).

(** What the accumulator of [np_unique] holds after the elements [seen]. *)
Definition counts_of {A : Type} (eqb ltb : A → A → bool) (seen : list A)
    (acc : list (A * nat)) : Prop :=
  increasing ltb acc ∧
  ∀ x c, (x, c) ∈ acc ↔ 0 < c ∧ c = occurrences eqb x seen.

(** ** The vocabulary invariant and example states *)

(** The ids in use are exactly [0 .. size - 1], each held by one token. *)
Definition dense (v : gmap string nat) : Prop :=
  (∀ s i, v !! s = Some i → i < size v) ∧
  (∀ s1 s2 i, v !! s1 = Some i → v !! s2 = Some i → s1 = s2) ∧
  (∀ i, i < size v → ∃ s, v !! s = Some i).

(** [keeps P c]: running [c] keeps the property [P] of the agent, however
    [c] ends. *)
Definition keeps {A : Type} (P : agent → Prop) (c : M A) : Prop :=
  ∀ w, P (me w) → P (me (snd (c w))).

(** Neither [doc_freqs] nor [num_tokens] is set. *)
Definition unset (a : agent) : Prop :=
  doc_freqs (cache a) = None ∧ num_tokens (cache a) = None.

(** The sum of the counts of the records for token [t] and document [d]. *)
Definition record_sum (records : list (nat * nat * nat)) (t d : nat) : nat :=
  sum_list (map (λ e : nat * nat * nat,
                   if decide (fst e = (t, d)) then snd e else 0) records).

(** The three frequency lists of the agent. *)
Definition freqs (w : world) : list nat * list nat * list nat :=
  (freq_token (idx (me w)), freq_fact_id (idx (me w)), freq_freq (idx (me w))).

(** Both matrices deleted. *)
Definition clear_caches (c : caches) : caches :=
  set_count_matrix None (set_tfidfs None c).

(** [stays P c]: running [c] keeps the property [P] of the whole state,
    however [c] ends. *)
Definition stays {A : Type} (P : world → Prop) (c : M A) : Prop :=
  ∀ w, P w → P (snd (c w)).

(** The document table is [tbl] and the wait list still starts with
    [pending]. *)
Definition unstored (tbl : gmap string table) (pending : list (nat * string))
    (w : world) : Prop :=
  db (sh w) = tbl ∧ pending `prefix_of` insert_wait_list (me w).

(** The three frequency lists have one length and every count is
    positive. *)
Definition well_formed (a : agent) : Prop :=
  length (freq_token (idx a)) = length (freq_freq (idx a)) ∧
  length (freq_fact_id (idx a)) = length (freq_freq (idx a)) ∧
  Forall (λ c, 0 < c) (freq_freq (idx a)).

(** The shared objects and the primary agent right after [__init__] on a
    new database file. *)
Definition new_shared : shared :=
  Shared 0 false [] [] {[DOC_TABLE_NAME := CREATE_TABLE]} None None.

Definition primary : agent := blank (Links None None (Some []) (Some [])).

(** An observation without a text, on the new primary agent. *)
Definition no_text_world : world :=
  World new_shared (set_observation {["labels" := "greeting"]} primary).

(** An index of one document, the fact [a b], as [save] would have
    written it, and the primary agent after [load] read it and then
    observed the fact [c]. *)
Definition one_fact_matrix : sparse nat :=
  Sparse (2, 1) (<[(1, 0) := 1]> {[(0, 0) := 1]}).

Definition one_fact_tokens : gmap string nat := <["b" := 1]> {["a" := 0]}.

Definition saved_shared : shared :=
  set_retriever_file (Some one_fact_matrix)
    (set_token_file (Some one_fact_tokens) new_shared).

Definition loaded_agent : agent :=
  Agent {["text" := "c"]} (Index one_fact_tokens [] [] []) [] 0
    (Caches (Some one_fact_matrix) (Some (tfidf_of one_fact_matrix)) None None)
    (Links None None (Some []) (Some [])).

Definition loaded_world : world := World (set_num_docs 1 saved_shared) loaded_agent.

(** The count matrix of an index whose only token is [a], in one document. *)
Definition one_token_matrix : sparse nat := Sparse (1, 1) {[(0, 0) := 1]}.

(** The document table holding the fact [a] under id 0. *)
Definition stored_world : world :=
  World (set_db {[DOC_TABLE_NAME :=
                    Table ["id"; "x"; "y"] [[SqlInt 0; SqlText "a"; SqlNull]]]}
           new_shared)
        primary.

(** The primary agent with one child, whose queue holds what the child's
    [shutdown] sends after taking in the fact [a] as document 0: its
    vocabulary, its frequency lists and the end mark. *)
Definition child_messages : list message :=
  [MsgDict {["a" := 0]}; MsgList [[0]; [0]; [1]]; MsgStr END_OF_DATA].

Definition merge_world : world :=
  World (set_queues [child_messages] (set_shared_queue [0] (set_num_docs 1 new_shared)))
        (set_link (set_comm_queues (Some [0])) primary).

(** The shared objects after the primary agent's first [share], and the
    child made from what it returned, before and after it took in the
    fact [a]. *)
Definition child_shared : shared := set_queues [[]] new_shared.

Definition new_child : agent := blank (Links (Some 0) (Some 0) None None).

Definition child_with_fact : agent :=
  Agent {["text" := "a"]} (Index {["a" := 0]} [0] [0] [1]) [(0, "a")] 1
    (Caches None None None None) (Links (Some 0) (Some 0) None None).

(** What a child that took in no fact puts on its queue. *)
Definition idle_messages : list message :=
  [MsgDict ∅; MsgList [[]; []; []]; MsgStr END_OF_DATA].

(** The primary agent that has shared once, with the translation map of
    its one child still empty, and the shared objects once that child,
    having taken nothing in, has shut down. *)
Definition primary_of_one_child : agent :=
  blank (Links None None (Some [0]) (Some [∅])).

Definition idle_child_sent : shared :=
  set_queues [idle_messages] (set_shared_queue [0] child_shared).

(** An index of five documents over the tokens [a] and [b], as [save]
    would have written it: [a] occurs in documents 0 and 1, [b] in all
    five. *)
Definition five_fact_matrix : sparse nat :=
  Sparse (2, 5)
    (list_to_map [((0, 0), 1); ((0, 1), 2);
                  ((1, 0), 1); ((1, 1), 1); ((1, 2), 1); ((1, 3), 1); ((1, 4), 1)]).

Definition five_fact_shared : shared :=
  set_retriever_file (Some five_fact_matrix)
    (set_token_file (Some one_fact_tokens) new_shared).

Section Retriever.

(** [self._tokenize], numpy's [argsort] and numpy's [argpartition]. *)
Variable tokenize : string → list string.
Variable argsort : list R → list nat.
Variable argpartition : list R → nat → list nat.

Definition act : M (gmap string string) :=
  a ← get_me;
  (match tfidfs (cache a) with
   | Some _ =>
       del_attr "tfidfs" tfidfs (set_tfidfs None) ;;
       del_attr "count_matrix" count_matrix (set_count_matrix None) ;;
       del_attr "doc_freqs" doc_freqs (set_doc_freqs None) ;;
       del_attr "num_tokens" num_tokens (set_num_tokens None)
   | None => mret tt
   end) ;;
  (match observation a !! "text" with
   | Some fact =>
       upd_me (λ a, set_cnt (cnt a + 1) a) ;;
       a ← get_me;
       (if Nat.eqb (cnt a mod (100 * 100)) 0 then print_info "Processed rows..." else mret tt) ;;
       fact_id ← _insert_fact_without_id fact;
       for_each (unique_tokens (tokenize fact)) (λ tc,
         _new_freq (PyStr (fst tc)) fact_id (snd tc))
   | None => mret tt
   end) ;;
  mret {["id" := "TfidfRetriever"]}.

(** [retrieve] is a generator; this is its body run to the end, returning
    what it yields. *)
Definition retrieve (query : string) (max_results : nat) : M (list sqlval) :=
  _flush_db_wait_list true ;;
  a ← get_me;
  let tokens := filter (λ token, is_Some (all_tokens (idx a) !! token)) (tokenize query) in
  match tokens with
  | [] => mret []
  | _ =>
      compute_tfidf ;;
      wids ← map_M (λ token, _token2id (PyStr token)) tokens;
      let wids_unique := map fst (unique_ids wids) in
      let wids_counts := map snd (unique_ids wids) in
      let tfs := map log1p wids_counts in
      a ← get_me;
      df ← or_raise (AttributeError "doc_freqs") (doc_freqs (cache a));
      Ns ← or_raise IndexError (take_idx df wids_unique);
      s ← get_sh;
      let idfs := map (idf (num_docs s)) Ns in
      let data := zip_with Rmult tfs idfs in
      n ← undefined_method "len";
      t ← or_raise (AttributeError "tfidfs") (tfidfs (cache a));
      res ← lift (row_times (zip wids_unique data) n t);
      sel ← or_raise IndexError
              (select_top argsort argpartition (fst res) (snd res) max_results);
      fetch_documents (snd sel)
  end.

(** ** Runs of one agent

    What can be called on an agent from outside; between two calls the
    other agents may change the shared objects in any way. *)
Inductive call : Type :=
| Observe (o : gmap string string)
| Act
| Retrieve (query : string) (max_results : nat)
| ComputeTfidf
| Save
| Load
| Share
| Shutdown.

Definition after (c : call) (w : world) : world :=
  match c with
  | Observe o => World (sh w) (set_observation o (me w))
  | Act => snd (act w)
  | Retrieve query max_results => snd (retrieve query max_results w)
  | ComputeTfidf => snd (compute_tfidf w)
  | Save => snd (save w)
  | Load => snd (load w)
  | Share => snd (share w)
  | Shutdown => snd (shutdown w)
  end.

Inductive reachable : world → Prop :=
| reach_init (shared_arg : option (nat * nat)) (s s' : shared) (a : agent) :
    __init__ shared_arg s = (Ret a, s') → reachable (World s' a)
| reach_call (c : call) (w : world) :
    reachable w → reachable (after c w)
| reach_others (s' : shared) (w : world) :
    reachable w → reachable (World s' (me w)).

(** * Properties *)

Ltac run :=
  unfold mbind, mret, M_bind, M_ret, raise, block, get_me, get_sh, upd_me, upd_sh,
    or_raise, lift, undefined_method in *;
  cbn in *.

Lemma run_bind {A B : Type} (c : M A) (f : A → M B) (w : world) :
  (c ≫= f) w =
    match c w with
    | (Ret a, w') => f a w'
    | (Raise e, w') => (Raise e, w')
    | (Block, w') => (Block, w')
    end.
Proof. reflexivity. Qed.

(** ** The vocabulary *)

Lemma dense_insert_new (v : gmap string nat) (s : string) :
  v !! s = None → dense v → dense (<[s := size v]> v).
Proof.
  intros Hs (Hlt & Hinj & Hsur). unfold dense.
  rewrite map_size_insert_None by done.
  split; [|split].
  - intros s' i. rewrite lookup_insert.
    case_decide; [intros [= <-]; lia | intros Hi%Hlt; lia].
  - intros s1 s2 i. rewrite !lookup_insert.
    repeat case_decide; subst; try done.
    + intros [= <-] Hi%Hlt. lia.
    + intros Hi%Hlt [= <-]. lia.
    + apply Hinj.
  - intros i Hi. destruct (decide (i = size v)) as [->|Hne].
    + exists s. by rewrite lookup_insert_eq.
    + destruct (Hsur i) as [s' Hs']; [lia|].
      exists s'. rewrite lookup_insert_ne by congruence. done.
Qed.

(** C8.  [_token2id] on a token string always returns an id, and calling it
    again with the same string returns the same id and changes nothing.  A
    string already in the vocabulary keeps its id and the state is left as
    it was.  A new string gets the current size of the vocabulary as its
    id, the vocabulary grows by one, and a second, different new string
    then gets the next id.  No other token changes its id, and a
    vocabulary whose ids are exactly [0 .. size - 1], one per token, stays
    so. *)
Theorem token2id_assigns_dense_ids (w : world) (s : string) :
  let v := all_tokens (idx (me w)) in
  ∃ i w',
    _token2id (PyStr s) w = (Ret i, w') ∧
    _token2id (PyStr s) w' = (Ret i, w') ∧
    (∀ j, v !! s = Some j → i = j ∧ w' = w) ∧
    (v !! s = None → i = size v ∧ size (all_tokens (idx (me w'))) = S (size v)) ∧
    (∀ s2, s2 ≠ s → v !! s = None → v !! s2 = None →
       ∃ w'', _token2id (PyStr s2) w' = (Ret (S i), w'')) ∧
    (∀ s' j, v !! s' = Some j → all_tokens (idx (me w')) !! s' = Some j) ∧
    (dense v → dense (all_tokens (idx (me w')))).
Proof.
  destruct w as [sh [o [v ft ff fq] wl c ca l]]. cbn.
  unfold _token2id. run.
  destruct (v !! s) as [i|] eqn:E.
  - exists i, (World sh (Agent o (Index v ft ff fq) wl c ca l)). cbn.
    rewrite E. split_and!; try done.
    intros k [= ->]. done.
  - eexists _, _. split; [reflexivity|]. cbn.
    rewrite lookup_insert_eq. split_and!; try done.
    + intros _. split; [done|]. by apply map_size_insert_None.
    + intros s2 Hne _ H2. rewrite lookup_insert_ne by done.
      rewrite H2, map_size_insert_None by done. eauto.
    + intros s' k Hs'. rewrite lookup_insert_ne by congruence. done.
    + by apply dense_insert_new.
Qed.

(** ** [act] without a text *)

(** C10.  When the observation has no ['text'] entry and no tf-idf matrix
    is cached, [act] returns [{'id': 'TfidfRetriever'}] and the whole state
    is what it was: vocabulary, the three frequency lists, the wait list
    and the shared document counter included. *)
Theorem act_without_text_changes_nothing (w : world) :
  tfidfs (cache (me w)) = None →
  observation (me w) !! "text" = None →
  act w = (Ret {["id" := "TfidfRetriever"]}, w).
Proof.
  destruct w as [sh a]. cbn. intros Ht Ho.
  unfold act. run. rewrite Ht, Ho. reflexivity.
Qed.

(** ** The count matrix *)

Lemma get_count_matrix_run (w : world) :
  _get_count_matrix w =
    match count_matrix (cache (me w)) with
    | Some m => (Ret m, w)
    | None => (Raise (AttributeError "len"), w)
    end.
Proof.
  destruct w as [sh a]. unfold _get_count_matrix. run.
  by destruct (count_matrix (cache a)).
Qed.

(** C5.  [_get_count_matrix] returns the cached matrix when there is one
    and leaves the state alone; with no cached matrix it raises
    [AttributeError] at [self.len], builds nothing and caches nothing. *)
Theorem get_count_matrix_cached_or_raises (w : world) :
  _get_count_matrix w =
    match count_matrix (cache (me w)) with
    | Some m => (Ret m, w)
    | None => (Raise (AttributeError "len"), w)
    end.
Proof. exact (get_count_matrix_run w). Qed.

Lemma fold_add_entry (records : list (nat * nat * nat)) :
  ∀ (m : gmap (nat * nat) nat) (t d : nat),
    default 0 (fold_left add_entry records m !! (t, d))
    = default 0 (m !! (t, d)) + record_sum records t d.
Proof.
  induction records as [|[[r c] v] records IH]; intros m t d; cbn [fold_left].
  - unfold record_sum. cbn. lia.
  - rewrite IH. unfold record_sum. cbn [map sum_list fst snd add_entry].
    rewrite lookup_insert. destruct (decide ((r, c) = (t, d))) as [[= -> ->]|Hne].
    + cbn. unfold id. lia.
    + cbn. unfold id. lia.
Qed.

(** What lines 129 to 133 build once they have a shape: a matrix of that
    shape whose cell (t, d) is the sum of the counts of the records for
    (t, d).  It is built when the three lists have one length and every
    index lies inside the shape. *)
Lemma csr_matrix_sums (data row col : list nat) (shp : nat * nat) :
  length row = length data → length col = length data →
  Forall (λ r, r < fst shp) row → Forall (λ c, c < snd shp) col →
  ∃ m, csr_matrix data row col shp = Ret m ∧
       shape m = shp ∧
       ∀ t d, cell m t d = record_sum (zip3 row col data) t d.
Proof.
  intros Hr Hc Hrows Hcols. unfold csr_matrix.
  rewrite Hr, Hc, !Nat.eqb_refl. cbn [andb negb].
  assert (H1 : forallb (λ r, Nat.ltb r (fst shp)) row = true).
  { apply forallb_forall. intros r Hin. apply Nat.ltb_lt.
    eapply Forall_forall in Hrows; [done|]. by apply list_elem_of_In. }
  assert (H2 : forallb (λ c, Nat.ltb c (snd shp)) col = true).
  { apply forallb_forall. intros c Hin. apply Nat.ltb_lt.
    eapply Forall_forall in Hcols; [done|]. by apply list_elem_of_In. }
  rewrite H1, H2. cbn [negb]. eexists. split_and!; try done.
  intros t d. unfold cell. cbn [cells]. rewrite fold_add_entry.
  by rewrite lookup_empty.
Qed.

(** ** Flushing the wait list *)

(** What a flush can do: nothing when the list is empty; wait, or skip,
    when the lock is held; and otherwise take the lock and fail in
    [executemany], since every entry of the wait list is a pair bound to a
    statement with three placeholders.  The lock then stays held. *)
Lemma flush_cases (blocking : bool) (w : world) :
  (insert_wait_list (me w) = [] ∧ _flush_db_wait_list blocking w = (Ret tt, w)) ∨
  (insert_wait_list (me w) ≠ [] ∧ db_lock (sh w) = true ∧
     _flush_db_wait_list blocking w = (if blocking then Block else Ret tt, w)) ∨
  (insert_wait_list (me w) ≠ [] ∧ db_lock (sh w) = false ∧
     ∃ e, _flush_db_wait_list blocking w
          = (Raise e, World (set_db_lock true (sh w)) (me w))).
Proof.
  destruct w as [s a]. unfold _flush_db_wait_list, acquire. run.
  destruct (insert_wait_list a) as [|p l] eqn:El; [by left|right].
  destruct (db_lock s) eqn:Hl; cbn; rewrite Hl; cbn.
  - left. split_and!; try done. by destruct blocking.
  - right. split_and!; try done.
    unfold executemany. run.
    destruct (db s !! DOC_TABLE_NAME) as [t|]; [|eauto].
    destruct (negb _) eqn:Hc; eauto.
Qed.

(** ** [act] after the matrices were built *)

(** C3.  With both matrices cached, [act] deletes [tfidfs] and
    [count_matrix] and then raises [AttributeError] at
    [del self.doc_freqs], an attribute nothing assigns.  The fact of the
    observation is not taken in: the index, the wait list and the document
    counter are what they were.  In the state left behind, asking for the
    tf-idf matrix raises [AttributeError] again, at [self.len], so nothing
    is rebuilt. *)
Theorem act_after_build_raises (w : world) (m : sparse nat) (t : sparse R) :
  count_matrix (cache (me w)) = Some m →
  tfidfs (cache (me w)) = Some t →
  doc_freqs (cache (me w)) = None →
  let w' := World (sh w) (set_cache clear_caches (me w)) in
  act w = (Raise (AttributeError "doc_freqs"), w') ∧
  compute_tfidf w' = (Raise (AttributeError "len"), w').
Proof.
  destruct w as [s [o i wl c [cm tf df nt] l]]. cbn.
  intros -> -> ->. split.
  - unfold act, del_attr. run. reflexivity.
  - unfold compute_tfidf. run. rewrite get_count_matrix_run. reflexivity.
Qed.

(** ** [shutdown] on the primary agent *)

(** C4.  On an agent made without a shared handle, [shutdown] never
    returns normally.  If the wait list is empty it raises
    [AttributeError] at [self.start_data_collection()]; otherwise the
    flush before it already fails or waits.  Nothing was written to the
    document table, no contribution was merged into the agent, and neither
    file of [save] was written. *)
Theorem primary_shutdown_never_returns (w : world) :
  comm_queue (link (me w)) = None →
  ∃ o w',
    shutdown w = (o, w') ∧
    (∀ u, o ≠ Ret u) ∧
    (insert_wait_list (me w) = [] →
       o = Raise (AttributeError "start_data_collection") ∧ w' = w) ∧
    me w' = me w ∧
    db (sh w') = db (sh w) ∧
    token_file (sh w') = token_file (sh w) ∧
    retriever_file (sh w') = retriever_file (sh w).
Proof.
  intros Hq. unfold shutdown. unfold mbind at 1, M_bind.
  destruct (flush_cases true w) as [[Hl ->]|[(Hl & Hk & ->)|(Hl & Hk & e & ->)]].
  - run. rewrite Hq. eexists _, _. split; [reflexivity|]. by split_and!.
  - eexists _, _. split; [reflexivity|]. by split_and!.
  - eexists _, _. split; [reflexivity|]. by split_and!.
Qed.

(** ** Looking the documents up *)

(** C9.  On the document table as [__init__] creates it, with columns
    [id], [x] and [y], the first lookup of the result loop raises
    [OperationalError]: the statement selects a column [fact] by a column
    [fact_id], and the table has neither.  No text is yielded, whatever the
    table holds. *)
Theorem fetch_documents_raises (w : world) (t : table) (d : nat) (ds : list nat) :
  db (sh w) !! DOC_TABLE_NAME = Some t →
  columns t = columns CREATE_TABLE →
  fetch_documents (d :: ds) w = (Raise (OperationalError "no such column"), w).
Proof.
  destruct w as [s a]. cbn. intros Ht Hc.
  unfold execute_fetchall. run. rewrite Ht, Hc. reflexivity.
Qed.

(** ** [retrieve] up to the query vector *)

Lemma token2id_known (w : world) (s : string) (i : nat) :
  all_tokens (idx (me w)) !! s = Some i →
  _token2id (PyStr s) w = (Ret i, w).
Proof.
  destruct w as [sh a]. cbn. intros H. unfold _token2id. run. by rewrite H.
Qed.

Lemma map_M_known_tokens (w : world) (tokens : list string) :
  Forall (λ token, is_Some (all_tokens (idx (me w)) !! token)) tokens →
  ∃ wids, map_M (λ token, _token2id (PyStr token)) tokens w = (Ret wids, w).
Proof.
  induction 1 as [|s l [i Hi] _ [wids IH]].
  - by exists [].
  - exists (i :: wids). cbn [map_M]. unfold mbind, M_bind.
    rewrite (token2id_known _ _ _ Hi), IH. reflexivity.
Qed.

Lemma get_tfidf_run (m : sparse nat) (w : world) :
  (∃ t, tfidfs (cache (me w)) = Some t ∧
        _get_tfidf_from_count_matrix m w = (Ret t, w)) ∨
  (tfidfs (cache (me w)) = None ∧
   ∃ o, _get_tfidf_from_count_matrix m w
        = (o, match o with
              | Ret t => World (sh w) (set_cache (set_tfidfs (Some t)) (me w))
              | _ => w
              end)).
Proof.
  destruct w as [s a]. unfold _get_tfidf_from_count_matrix. run.
  destruct (tfidfs (cache a)) as [t|]; [left; eauto|right].
  split; [done|].
  destruct (clamp_negative _) as [idfs|e|]; cbn;
    [by eexists (Ret _)|by exists (Raise e)|by exists Block].
Qed.

(** C1.  For a query with a token of the vocabulary, [retrieve] yields
    nothing and ends in an exception or waits for the lock: no query
    vector is built.  With an empty wait list the exception is
    [AttributeError]: at [self.len] when no count matrix is cached; and
    when both matrices are cached, at [self.doc_freqs], which holds the
    document frequencies the idf of the query needs and which nothing
    assigns. *)
Theorem retrieve_never_weights_the_query (w : world) (query : string)
    (max_results : nat) (token : string) :
  doc_freqs (cache (me w)) = None →
  token ∈ tokenize query →
  is_Some (all_tokens (idx (me w)) !! token) →
  ∃ o w',
    retrieve query max_results w = (o, w') ∧
    (∀ r, o ≠ Ret r) ∧
    (insert_wait_list (me w) = [] → count_matrix (cache (me w)) = None →
       o = Raise (AttributeError "len") ∧ w' = w) ∧
    (insert_wait_list (me w) = [] → is_Some (count_matrix (cache (me w))) →
       is_Some (tfidfs (cache (me w))) →
       o = Raise (AttributeError "doc_freqs") ∧ w' = w).
Proof.
  intros Hdf Hin Hknown. unfold retrieve. rewrite run_bind.
  destruct (flush_cases true w) as [[Hl ->]|[(Hl & Hk & ->)|(Hl & Hk & e & ->)]];
    [|by eexists _, _; split_and!..].
  rewrite run_bind. unfold get_me at 1.
  set (tokens := filter _ _).
  assert (Hall : Forall (λ t, is_Some (all_tokens (idx (me w)) !! t)) tokens).
  { apply Forall_forall. intros t Ht. apply list_elem_of_filter in Ht. tauto. }
  assert (Hne : token ∈ tokens) by (apply list_elem_of_filter; done).
  destruct tokens as [|t0 tokens']; [by apply elem_of_nil in Hne|].
  rewrite run_bind. unfold compute_tfidf. rewrite run_bind, get_count_matrix_run.
  destruct (count_matrix (cache (me w))) as [m|] eqn:Hcm.
  2:{ eexists _, _. split; [reflexivity|]. split_and!; try done.
      all: try by intros _ [? ?]. }
  assert (Htail : ∀ w1 : world,
            all_tokens (idx (me w1)) = all_tokens (idx (me w)) →
            doc_freqs (cache (me w1)) = None →
            (wids ← map_M (λ tok, _token2id (PyStr tok)) (t0 :: tokens');
             a ← get_me;
             df ← or_raise (AttributeError "doc_freqs") (doc_freqs (cache a));
             Ns ← or_raise IndexError
                    (take_idx df (map fst (unique_ids wids)));
             s ← get_sh;
             n ← undefined_method "len";
             t ← or_raise (AttributeError "tfidfs") (tfidfs (cache a));
             res ← lift (row_times
                           (zip (map fst (unique_ids wids))
                              (zip_with Rmult (map log1p (map snd (unique_ids wids)))
                                 (map (idf (num_docs s)) Ns))) n t);
             sel ← or_raise IndexError
                     (select_top argsort argpartition (fst res) (snd res) max_results);
             fetch_documents (snd sel)) w1
            = (Raise (AttributeError "doc_freqs"), w1)).
  { intros w1 Hv Hd. rewrite run_bind.
    destruct (map_M_known_tokens w1 (t0 :: tokens')) as [wids ->].
    { by rewrite Hv. }
    rewrite run_bind. unfold get_me at 1. rewrite run_bind, Hd. reflexivity. }
  destruct (get_tfidf_run m w) as [(t & Ht & ->)|(Ht & o & ->)].
  - rewrite Htail by done. eexists _, _. split; [reflexivity|]. by split_and!.
  - destruct o as [t|e|]; [rewrite Htail by done|..];
      (eexists _, _; split; [reflexivity|]; split_and!; try done;
       intros _ _ [? ?]; congruence).
Qed.

(** ** The tf-idf matrix *)

Lemma clamp_Rmax (x : R) : clamp x = Rmax 0 x.
Proof.
  unfold clamp, Rmax. destruct (Rlt_dec x 0), (Rle_dec 0 x); lra.
Qed.

Lemma clamp_nonneg (x : R) : (0 <= clamp x)%R.
Proof. unfold clamp. destruct (Rlt_dec x 0); lra. Qed.

Lemma doc_count_le (m : sparse nat) (t : nat) : (doc_count m t <= snd (shape m))%nat.
Proof.
  unfold doc_count.
  etransitivity; [apply length_filter|]. by rewrite length_seq.
Qed.

Lemma idf_argument_pos (D Nt : nat) :
  (Nt <= D)%nat → (0 < (INR D - INR Nt + 0.5) / (INR Nt + 0.5))%R.
Proof.
  intros H. apply le_INR in H. pose proof (pos_INR Nt).
  apply Rdiv_lt_0_compat; lra.
Qed.

Lemma idf_all_documents (D : nat) : idf D D = 0%R.
Proof.
  unfold idf, raw_idf, clamp. pose proof (pos_INR D) as HD.
  destruct (Rlt_dec _ 0) as [|Hn]; [done|].
  replace ((INR D - INR D + 0.5) / (INR D + 0.5))%R
    with (1 - INR D * / (INR D + 0.5))%R in * by (field; lra).
  assert (Hq : (0 <= INR D * / (INR D + 0.5))%R)
    by (apply Rle_mult_inv_pos; lra).
  assert (Hp : (0 < 1 - INR D * / (INR D + 0.5))%R).
  { replace (1 - INR D * / (INR D + 0.5))%R with (0.5 * / (INR D + 0.5))%R
      by (field; lra).
    apply Rmult_lt_0_compat; [lra|]. apply Rinv_0_lt_compat. lra. }
  destruct (Rle_lt_or_eq_dec _ _ Hq) as [Hlt|Heq].
  - exfalso. apply Hn. rewrite <- ln_1. apply ln_increasing; lra.
  - rewrite <- Heq, Rminus_0_r. apply ln_1.
Qed.

Lemma idf_of_row (m : sparse nat) (t : nat) :
  t < fst (shape m) →
  nth t (map (idf (snd (shape m))) (row_sums m)) 0%R
  = idf (snd (shape m)) (doc_count m t).
Proof.
  intros Ht. unfold row_sums. rewrite map_map.
  rewrite (nth_indep _ 0%R (idf (snd (shape m)) (doc_count m 0)))
    by (rewrite length_map, length_seq; lia).
  rewrite (map_nth (λ x, idf (snd (shape m)) (doc_count m x))).
  by rewrite seq_nth.
Qed.

Lemma tfidf_of_cell (m : sparse nat) (t d : nat) :
  t < fst (shape m) →
  rcell (tfidf_of m) t d
  = (idf (snd (shape m)) (doc_count m t) * log1p (cell m t d))%R.
Proof.
  intros Ht. unfold rcell, cell, tfidf_of, scale_rows, log1p_matrix. cbn.
  rewrite map_lookup_imap, lookup_fmap.
  destruct (cells m !! (t, d)) as [c|]; cbn.
  - by rewrite idf_of_row.
  - unfold log1p. cbn. rewrite Rplus_0_r, ln_1. lra.
Qed.

(** The row sums stay an array unless the matrix has exactly one row. *)
Lemma clamp_of_row_sums (m : sparse nat) :
  clamp_negative (elementwise (raw_idf (snd (shape m))) (squeeze (row_sums m)))
  = if decide (fst (shape m) = 1)
    then Raise (TypeError "'numpy.float64' object does not support item assignment")
    else Ret (map (idf (snd (shape m))) (row_sums m)).
Proof.
  unfold row_sums.
  destruct (fst (shape m)) as [|[|V]]; cbn; [by rewrite ?map_map..|].
  by rewrite !map_map.
Qed.

Lemma get_tfidf_uncached (m : sparse nat) (w : world) :
  tfidfs (cache (me w)) = None →
  _get_tfidf_from_count_matrix m w =
    if decide (fst (shape m) = 1)
    then (Raise (TypeError "'numpy.float64' object does not support item assignment"), w)
    else (Ret (tfidf_of m),
          World (sh w) (set_cache (set_tfidfs (Some (tfidf_of m))) (me w))).
Proof.
  destruct w as [s a]. cbn. intros Ht. unfold _get_tfidf_from_count_matrix. run.
  rewrite Ht, clamp_of_row_sums. by destruct (decide _).
Qed.

(** C7.  With no tf-idf matrix cached, [_get_tfidf_from_count_matrix]
    derives one from the count matrix it is given, unless that matrix has
    exactly one row.  With any other number of rows it caches and returns
    a matrix of the same shape whose cell (t, d) is
    [idf_t * log(1 + count[t,d])], where [idf_t] is
    [max(0, log((D - N_t + 0.5) / (N_t + 0.5)))], [D] is the number of
    columns and [N_t] the number of columns in which row [t] has a positive
    count; [N_t] is at most [D], so the logarithm is taken of a positive
    number; [idf_t] is never negative, and it is 0 when [N_t = D].  With
    exactly one row the squeezed row sums are a scalar, the assignment
    [idfs[idfs < 0] = 0] raises [TypeError], and nothing is cached. *)
Theorem tfidf_matrix_formula (w : world) (m : sparse nat) :
  tfidfs (cache (me w)) = None →
  let V := fst (shape m) in
  let D := snd (shape m) in
  let N := λ t, length (filter (λ d, 0 < cell m t d) (seq 0 D)) in
  (V ≠ 1 →
   ∃ T w',
     _get_tfidf_from_count_matrix m w = (Ret T, w') ∧
     w' = World (sh w) (set_cache (set_tfidfs (Some T)) (me w)) ∧
     shape T = shape m ∧
     (∀ t d, t < V →
        rcell T t d = (idf D (N t) * ln (1 + INR (cell m t d)))%R)) ∧
  (V = 1 →
   _get_tfidf_from_count_matrix m w =
     (Raise (TypeError "'numpy.float64' object does not support item assignment"), w)) ∧
  (∀ t, idf D (N t)
        = Rmax 0 (ln ((INR D - INR (N t) + 0.5) / (INR (N t) + 0.5)))) ∧
  (∀ t, (N t <= D)%nat ∧
        (0 < (INR D - INR (N t) + 0.5) / (INR (N t) + 0.5))%R) ∧
  (∀ t, (0 <= idf D (N t))%R) ∧
  (∀ t, N t = D → idf D (N t) = 0%R).
Proof.
  intros Ht V D N. pose proof (get_tfidf_uncached m w Ht) as Hrun.
  split_and!.
  - intros HV. rewrite decide_False in Hrun by done.
    eexists _, _. split_and!; try done.
    intros t d Hlt. by apply tfidf_of_cell.
  - intros HV. by rewrite decide_True in Hrun.
  - intros t. apply clamp_Rmax.
  - intros t. split; [apply doc_count_le|].
    apply idf_argument_pos, doc_count_le.
  - intros t. apply clamp_nonneg.
  - intros t ->. apply idf_all_documents.
Qed.

(** ** Merging what the children send *)

Lemma vocabulary_item_step (w : world) (q : nat) (tok : string) (tid : nat)
    (maps : list (gmap nat nat)) (m : gmap nat nat) :
  child_token_map (link (me w)) = Some maps →
  maps !! q = Some m →
  ∃ i w',
    (true_token_id ← _token2id (PyStr tok); set_child_token q tid true_token_id) w
      = (Ret tt, w') ∧
    child_token_map (link (me w')) = Some (<[q := <[tid := i]> m]> maps) ∧
    sh w' = sh w ∧ freqs w' = freqs w.
Proof.
  destruct w as [s [o [v ft ff fq] wl c ca [cq ci cqs cm]]]. cbn.
  intros -> Hm. unfold _token2id, set_child_token. run.
  destruct (v !! tok) as [i|]; run; rewrite Hm; run;
    (eexists _, _; split; [reflexivity|]; cbn; split_and!; reflexivity).
Qed.

Lemma vocabulary_message_loop (q : nat) (items : list (string * nat)) :
  ∀ (w : world) (maps : list (gmap nat nat)) (m : gmap nat nat),
    child_token_map (link (me w)) = Some maps →
    maps !! q = Some m →
    ∃ w' maps' m',
      for_each items (λ item,
        true_token_id ← _token2id (PyStr (fst item));
        set_child_token q (snd item) true_token_id) w = (Ret tt, w') ∧
      child_token_map (link (me w')) = Some maps' ∧
      maps' !! q = Some m' ∧
      (∀ tid, is_Some (m !! tid) → is_Some (m' !! tid)) ∧
      (∀ item, item ∈ items → is_Some (m' !! snd item)) ∧
      sh w' = sh w ∧ freqs w' = freqs w.
Proof.
  induction items as [|[tok tid] items IH]; intros w maps m Hmaps Hm.
  - exists w, maps, m. split_and!; try done. intros item Hin. by apply elem_of_nil in Hin.
  - destruct (vocabulary_item_step w q tok tid maps m Hmaps Hm)
      as (i & w1 & Hstep & Hmaps1 & Hsh1 & Hfr1).
    assert (Hq : (<[q := <[tid := i]> m]> maps) !! q = Some (<[tid := i]> m)).
    { apply list_lookup_insert_eq. by eapply lookup_lt_Some. }
    destruct (IH w1 _ _ Hmaps1 Hq) as (w' & maps' & m' & Hloop & Hmaps' & Hm' & Hmono & Hitems & Hsh & Hfr).
    exists w', maps', m'. split_and!; try done.
    + cbn [for_each]. rewrite run_bind. cbn beta. cbn [fst snd].
      rewrite Hstep. exact Hloop.
    + intros t Ht. apply Hmono. rewrite lookup_insert.
      case_decide; [by eexists|done].
    + intros item [->|Hin]%elem_of_cons; [|by apply Hitems].
      apply Hmono. cbn. rewrite lookup_insert_eq. by eexists.
    + congruence.
    + congruence.
Qed.

Lemma process_vocabulary_message (q : nat) (d : gmap string nat) (w : world)
    (maps : list (gmap nat nat)) (m : gmap nat nat) :
  child_token_map (link (me w)) = Some maps →
  maps !! q = Some m →
  ∃ w' maps' m',
    process_message q (MsgDict d) w = (Ret false, w') ∧
    child_token_map (link (me w')) = Some maps' ∧
    maps' !! q = Some m' ∧
    (∀ tok tid, d !! tok = Some tid → is_Some (m' !! tid)) ∧
    sh w' = sh w ∧ freqs w' = freqs w.
Proof.
  intros Hmaps Hm.
  destruct (vocabulary_message_loop q (map_to_list d) w maps m Hmaps Hm)
    as (w' & maps' & m' & Hloop & Hmaps' & Hm' & _ & Hitems & Hsh & Hfr).
  exists w', maps', m'. split_and!; try done.
  - cbn [process_message]. rewrite run_bind, Hloop. reflexivity.
  - intros tok tid Hd. apply (Hitems (tok, tid)). by apply elem_of_map_to_list.
Qed.

Lemma process_frequency_message (q : nat) (w : world) (maps : list (gmap nat nat))
    (m : gmap nat nat) (tid x fid fr : nat) (tids fids frs : list nat) :
  child_token_map (link (me w)) = Some maps →
  maps !! q = Some m →
  m !! tid = Some x →
  process_message q (MsgList [tid :: tids; fid :: fids; fr :: frs]) w
    = (Raise (RuntimeError "surprise"), w).
Proof.
  destruct w as [s [o i wl c ca [cq ci cqs cm]]]. cbn.
  intros -> Hm Hx. unfold get_child_token, _new_freq, _token2id. run.
  rewrite Hm. cbn. rewrite Hx. reflexivity.
Qed.

Lemma drain_cons (q h : nat) (data : message) (rest : list message) (w : world) :
  drain q h (data :: rest) w =
    match process_message q data
            (World (set_queues (<[h := rest]> (queues (sh w))) (sh w)) (me w)) with
    | (Ret stop, w') => if stop then (Ret tt, w') else drain q h rest w'
    | (Raise e, w') => (Raise e, w')
    | (Block, w') => (Block, w')
    end.
Proof.
  cbn [drain]. rewrite run_bind. unfold upd_sh. rewrite run_bind.
  destruct (process_message _ _ _) as [[[]| |] w']; reflexivity.
Qed.

(** C2.  The collecting loop cannot take in a child's frequency records.
    When the child announced first has sent its vocabulary and then a
    frequency message with at least one record, [_process_child_data] maps
    the record's token id to the primary agent's id and passes that id to
    [_new_freq], whose [_token2id] refuses an int: the loop ends in
    [RuntimeError('surprise')] and the three frequency lists of the primary
    agent hold what they held before. *)
Theorem merge_raises_on_first_record (w : world) (qs rest : list nat)
    (queue_ind h : nat) (d : gmap string nat) (tok : string) (tid fid fr : nat)
    (tids fids frs : list nat) (msgs : list message) :
  comm_queues (link (me w)) = Some qs →
  shared_queue (sh w) = queue_ind :: rest →
  qs !! queue_ind = Some h →
  queues (sh w) !! h
    = Some (MsgDict d :: MsgList [tid :: tids; fid :: fids; fr :: frs] :: msgs) →
  d !! tok = Some tid →
  ∃ w', _process_child_data w = (Raise (RuntimeError "surprise"), w') ∧
        freqs w' = freqs w.
Proof.
  intros Hqs Hsq Hh Hq Hd.
  unfold _process_child_data. rewrite run_bind. unfold get_me at 1.
  rewrite run_bind, Hqs. unfold or_raise at 1, mret at 1, M_ret at 1.
  rewrite run_bind. unfold upd_me at 1.
  set (w0 := World (sh w) _).
  destruct qs as [|c qs']; [by rewrite lookup_nil in Hh|].
  cbn [for_each]. rewrite run_bind, run_bind. unfold get_sh at 1.
  change (sh w0) with (sh w). rewrite Hsq.
  rewrite run_bind. unfold upd_sh at 1. rewrite run_bind, Hh.
  unfold or_raise at 1, mret at 1, M_ret at 1. rewrite Hq. cbn [default from_option Datatypes.id].
  rewrite drain_cons.
  set (w1 := World _ _).
  assert (Hmaps1 : child_token_map (link (me w1))
                   = Some (map (λ _, ∅) (c :: qs'))) by reflexivity.
  assert (Hm1 : map (λ _ : nat, (∅ : gmap nat nat)) (c :: qs') !! queue_ind = Some ∅).
  { rewrite list_lookup_fmap, Hh. reflexivity. }
  destruct (process_vocabulary_message queue_ind d w1 _ _ Hmaps1 Hm1)
    as (w2 & maps2 & m2 & -> & Hmaps2 & Hm2 & Hdom & Hsh2 & Hfr2).
  rewrite drain_cons.
  destruct (Hdom tok tid Hd) as [x Hx].
  erewrite process_frequency_message; [|exact Hmaps2|exact Hm2|exact Hx].
  eexists. split; [reflexivity|]. unfold freqs in *. cbn. exact Hfr2.
Qed.

(** ** Attributes that nothing assigns *)

Lemma keeps_bind {A B : Type} (P : agent → Prop) (c : M A) (f : A → M B) :
  keeps P c → (∀ a, keeps P (f a)) → keeps P (c ≫= f).
Proof.
  intros Hc Hf w Hw. rewrite run_bind. specialize (Hc w Hw).
  destruct (c w) as [[a|e|] w']; cbn in *; [by apply Hf|done..].
Qed.

Lemma keeps_ret {A : Type} (P : agent → Prop) (a : A) : keeps P (mret a).
Proof. by intros w Hw. Qed.

Lemma keeps_raise {A : Type} (P : agent → Prop) (e : exn) : keeps P (raise (A := A) e).
Proof. by intros w Hw. Qed.

Lemma keeps_block {A : Type} (P : agent → Prop) : keeps P (block (A := A)).
Proof. by intros w Hw. Qed.

Lemma keeps_undefined {A : Type} (P : agent → Prop) (name : string) :
  keeps P (undefined_method (A := A) name).
Proof. by intros w Hw. Qed.

Lemma keeps_get_me (P : agent → Prop) : keeps P get_me.
Proof. by intros w Hw. Qed.

Lemma keeps_get_sh (P : agent → Prop) : keeps P get_sh.
Proof. by intros w Hw. Qed.

Lemma keeps_upd_sh (P : agent → Prop) (f : shared → shared) : keeps P (upd_sh f).
Proof. by intros w Hw. Qed.

Lemma keeps_upd_me (P : agent → Prop) (f : agent → agent) :
  (∀ a, P a → P (f a)) → keeps P (upd_me f).
Proof. intros Hf w Hw. by apply Hf. Qed.

Lemma keeps_or_raise {A : Type} (P : agent → Prop) (e : exn) (o : option A) :
  keeps P (or_raise e o).
Proof. destruct o; [apply keeps_ret|apply keeps_raise]. Qed.

Lemma keeps_lift {A : Type} (P : agent → Prop) (o : outcome A) : keeps P (lift o).
Proof. by intros w Hw. Qed.

Lemma keeps_for_each {A : Type} (P : agent → Prop) (l : list A) (body : A → M unit) :
  (∀ x, keeps P (body x)) → keeps P (for_each l body).
Proof.
  intros Hb. induction l as [|x l IH]; cbn [for_each]; [apply keeps_ret|].
  apply keeps_bind; [apply Hb|done].
Qed.

Lemma keeps_map_M {A B : Type} (P : agent → Prop) (f : A → M B) (l : list A) :
  (∀ x, keeps P (f x)) → keeps P (map_M f l).
Proof.
  intros Hf. induction l as [|x l IH]; cbn [map_M]; [apply keeps_ret|].
  apply keeps_bind; [apply Hf|]. intros y.
  apply keeps_bind; [apply IH|]. intros ys. apply keeps_ret.
Qed.

Create HintDb keeps.
#[local] Hint Resolve keeps_ret keeps_raise keeps_block keeps_undefined keeps_get_me
  keeps_get_sh keeps_upd_sh keeps_or_raise keeps_lift : keeps.

(** Breaks [keeps unset c] down along the shape of [c]. *)
Ltac keeps_step :=
  lazymatch goal with
  | |- keeps _ (mbind _ _) => apply keeps_bind; [|intros ?]
  | |- keeps _ (upd_me _) =>
      apply keeps_upd_me; intros [? ? ? ? [? ? ? ?] ?] [? ?]; by split
  | |- keeps _ (for_each _ _) => apply keeps_for_each; intros ?
  | |- keeps _ (map_M _ _) => apply keeps_map_M; intros ?
  | |- keeps _ (match ?x with _ => _ end) => destruct x
  | |- keeps _ _ => solve [auto with keeps]
  end.

Ltac keeps_auto := repeat keeps_step.

Lemma keeps_token2id (token : pyobj) : keeps unset (_token2id token).
Proof. unfold _token2id. keeps_auto. Qed.

Lemma keeps_flush (blocking : bool) : keeps unset (_flush_db_wait_list blocking).
Proof. unfold _flush_db_wait_list, acquire, executemany, release. keeps_auto. Qed.

Lemma keeps_new_freq (token : pyobj) (fact_id freq : nat) :
  keeps unset (_new_freq token fact_id freq).
Proof. unfold _new_freq. pose proof keeps_token2id. keeps_auto. Qed.

Lemma keeps_get_count_matrix : keeps unset _get_count_matrix.
Proof. unfold _get_count_matrix. keeps_auto. Qed.

Lemma keeps_get_tfidf (m : sparse nat) : keeps unset (_get_tfidf_from_count_matrix m).
Proof. unfold _get_tfidf_from_count_matrix. keeps_auto. Qed.

Lemma keeps_compute_tfidf : keeps unset compute_tfidf.
Proof.
  unfold compute_tfidf. apply keeps_bind; [apply keeps_get_count_matrix|].
  intros m. apply keeps_get_tfidf.
Qed.

Lemma keeps_insert_fact (fact : string) : keeps unset (_insert_fact_without_id fact).
Proof.
  unfold _insert_fact_without_id, _new_fact_id. pose proof keeps_flush. keeps_auto.
Qed.

Lemma keeps_act : keeps unset act.
Proof.
  unfold act, del_attr, print_info.
  pose proof keeps_insert_fact. pose proof keeps_new_freq. keeps_auto.
Qed.

Lemma keeps_save : keeps unset save.
Proof. unfold save. pose proof keeps_get_count_matrix. keeps_auto. Qed.

Lemma keeps_load : keeps unset load.
Proof. unfold load. pose proof keeps_get_tfidf. keeps_auto. Qed.

Lemma keeps_share : keeps unset share.
Proof. unfold share. keeps_auto. Qed.

Lemma keeps_fetch_documents (doc_ids : list nat) : keeps unset (fetch_documents doc_ids).
Proof.
  induction doc_ids as [|d ds IH]; cbn [fetch_documents]; [apply keeps_ret|].
  unfold execute_fetchall. keeps_auto.
Qed.

Lemma keeps_retrieve (query : string) (max_results : nat) :
  keeps unset (retrieve query max_results).
Proof.
  unfold retrieve.
  pose proof keeps_flush. pose proof keeps_compute_tfidf.
  pose proof keeps_token2id. pose proof keeps_fetch_documents.
  keeps_auto.
Qed.

Lemma keeps_process_message (queue_ind : nat) (data : message) :
  keeps unset (process_message queue_ind data).
Proof.
  unfold process_message, set_child_token, get_child_token.
  pose proof keeps_token2id. pose proof keeps_new_freq.
  destruct data as [d|l|s|]; [| |destruct (String.eqb s END_OF_DATA)|]; keeps_auto.
Qed.

Lemma keeps_drain (queue_ind h : nat) (pending : list message) :
  keeps unset (drain queue_ind h pending).
Proof.
  induction pending as [|data rest IH]; cbn [drain]; [apply keeps_block|].
  pose proof keeps_process_message. keeps_auto.
Qed.

Lemma keeps_process_child_data : keeps unset _process_child_data.
Proof. unfold _process_child_data. pose proof keeps_drain. keeps_auto. Qed.

Lemma keeps_shutdown : keeps unset shutdown.
Proof.
  unfold shutdown, queue_put, print_info, join.
  pose proof keeps_flush. pose proof keeps_save. keeps_auto.
Qed.

Lemma keeps_init_body (shared_arg : option (nat * nat)) :
  keeps unset (init_body shared_arg).
Proof.
  unfold init_body. pose proof keeps_process_child_data.
  keeps_auto; destruct (bool_decide _); keeps_auto.
Qed.

(** No run of an agent ever assigns [doc_freqs] or [num_tokens]: from
    [__init__] on, through any calls and whatever the other agents do,
    both stay unset. *)
Theorem doc_freqs_never_assigned (w : world) :
  reachable w → doc_freqs (cache (me w)) = None ∧ num_tokens (cache (me w)) = None.
Proof.
  induction 1 as [shared_arg s s' a Hinit|c w _ IH|s' w _ IH]; [| |exact IH].
  - unfold __init__ in Hinit.
    pose proof (keeps_init_body shared_arg
                  (World s (blank (Links None None None None)))) as Hk.
    destruct (init_body _ _) as [[u|e|] w']; [|done..].
    injection Hinit as <- <-. by apply Hk.
  - destruct c; cbn [after].
    + destruct w as [s [? ? ? ? ? ?]]. exact IH.
    + by apply keeps_act.
    + by apply keeps_retrieve.
    + by apply keeps_compute_tfidf.
    + by apply keeps_save.
    + by apply keeps_load.
    + by apply keeps_share.
    + by apply keeps_shutdown.
Qed.

(** ** What the other paths do *)

(** A child whose wait list is empty hands its data over in the order the
    primary agent reads it: its index on the shared queue, then on its own
    queue the vocabulary, the three frequency lists and the end mark. *)
Theorem child_shutdown_sends_in_order (w : world) (h cid : nat) :
  comm_queue (link (me w)) = Some h →
  child_id (link (me w)) = Some cid →
  insert_wait_list (me w) = [] →
  shutdown w =
    (Ret tt,
     World (set_queues
              (alter (λ q, q ++ [MsgDict (all_tokens (idx (me w)));
                                 MsgList [freq_token (idx (me w));
                                          freq_fact_id (idx (me w));
                                          freq_freq (idx (me w))];
                                 MsgStr END_OF_DATA]) h (queues (sh w)))
              (set_shared_queue (shared_queue (sh w) ++ [cid]) (sh w)))
           (me w)).
Proof.
  destruct w as [s [o i wl c ca [cq ci cqs cm]]]. cbn. intros -> -> ->.
  unfold shutdown, _flush_db_wait_list, queue_put, print_info. run.
  unfold set_queues, set_shared_queue. cbn. do 3 f_equal.
  rewrite !list_alter_alter_eq. apply list_alter_ext; [|done].
  intros q _. cbn. by rewrite <- !app_assoc.
Qed.

Lemma c_int_below (n : nat) :
  below_int_max n → c_int (Z.of_nat n + 1) = Z.of_nat (n + 1).
Proof.
  unfold below_int_max, INT_MAX, c_int. intros H.
  rewrite Z.mod_small by lia. lia.
Qed.

(** While the counter is below [INT_MAX] after the first call,
    [_new_fact_id] returns the counter and moves it on by one, so two
    calls in a row return two consecutive ids; both increments are those
    of the C int, which does not wrap there. *)
Theorem new_fact_ids_are_consecutive (w : world) :
  below_int_max (num_docs (sh w) + 1) →
  ∃ w1 w2,
    _new_fact_id w = (Ret (num_docs (sh w)), w1) ∧
    _new_fact_id w1 = (Ret (num_docs (sh w) + 1), w2) ∧
    num_docs (sh w2) = num_docs (sh w) + 2 ∧
    Z.of_nat (num_docs (sh w1)) = c_int (Z.of_nat (num_docs (sh w)) + 1) ∧
    Z.of_nat (num_docs (sh w2)) = c_int (Z.of_nat (num_docs (sh w1)) + 1) ∧
    me w2 = me w.
Proof.
  intros Hb.
  assert (Hb0 : below_int_max (num_docs (sh w)))
    by (unfold below_int_max in *; lia).
  destruct w as [s a]. unfold _new_fact_id. run.
  eexists _, _. split_and!; try reflexivity; cbn.
  - lia.
  - by rewrite c_int_below.
  - by rewrite c_int_below.
Qed.

(** A query none of whose tokens is in the vocabulary yields nothing and
    changes nothing, once the wait list is empty. *)
Theorem retrieve_unknown_tokens_yields_nothing (w : world) (query : string)
    (max_results : nat) :
  insert_wait_list (me w) = [] →
  Forall (λ token, all_tokens (idx (me w)) !! token = None) (tokenize query) →
  retrieve query max_results w = (Ret [], w).
Proof.
  destruct w as [s a]. cbn. intros Hl Hall.
  unfold retrieve, _flush_db_wait_list. run. rewrite Hl. cbn.
  replace (filter _ (tokenize query)) with (@nil string); [done|].
  symmetry. induction Hall as [|t l Ht _ IH]; [done|].
  rewrite filter_cons_False; [done|]. rewrite Ht. by intros [? ?].
Qed.

(** One call of [_new_freq] on a token string: the token has an id in the
    vocabulary afterwards, no token lost its id, and one record with that
    id went onto the three lists. *)
Lemma new_freq_appends (w : world) (tok : string) (fact_id freq : nat) :
  ∃ i w',
    _new_freq (PyStr tok) fact_id freq w = (Ret tt, w') ∧
    sh w' = sh w ∧
    all_tokens (idx (me w')) !! tok = Some i ∧
    (∀ t j, all_tokens (idx (me w)) !! t = Some j →
            all_tokens (idx (me w')) !! t = Some j) ∧
    freqs w' = (freq_token (idx (me w)) ++ [i],
                freq_fact_id (idx (me w)) ++ [fact_id],
                freq_freq (idx (me w)) ++ [freq]) ∧
    me w' = set_idx (λ _, idx (me w')) (me w).
Proof.
  destruct w as [s [o [v ft ff fq] wl c ca l]]. unfold _new_freq, _token2id. run.
  destruct (v !! tok) as [i|] eqn:E; run.
  - exists i. eexists. split; [reflexivity|]. by split_and!.
  - eexists _, _. split; [reflexivity|]. cbn. split_and!; try done.
    + by rewrite lookup_insert_eq.
    + intros t j Ht. rewrite lookup_insert_ne by congruence. done.
Qed.

Lemma new_freq_loop (fact_id : nat) (U : list (string * nat)) :
  ∀ w, ∃ ids w',
    for_each U (λ tc, _new_freq (PyStr (fst tc)) fact_id (snd tc)) w = (Ret tt, w') ∧
    sh w' = sh w ∧
    Forall2 (λ tc i, all_tokens (idx (me w')) !! fst tc = Some i) U ids ∧
    (∀ t j, all_tokens (idx (me w)) !! t = Some j →
            all_tokens (idx (me w')) !! t = Some j) ∧
    freqs w' = (freq_token (idx (me w)) ++ ids,
                freq_fact_id (idx (me w)) ++ replicate (length U) fact_id,
                freq_freq (idx (me w)) ++ map snd U) ∧
    me w' = set_idx (λ _, idx (me w')) (me w).
Proof.
  induction U as [|[tok c] U IH]; intros w.
  - exists [], w. cbn. rewrite !app_nil_r. split_and!; try done.
    by destruct w as [s [o [] wl c ca l]].
  - destruct (new_freq_appends w tok fact_id c) as (i & w1 & H1 & Hs1 & Hi & Hm1 & Hf1 & He1).
    destruct (IH w1) as (ids & w' & H2 & Hs2 & Hids & Hm2 & Hf2 & He2).
    exists (i :: ids), w'. split_and!.
    + cbn [for_each]. rewrite run_bind. cbn [fst snd]. by rewrite H1.
    + congruence.
    + constructor; [by apply Hm2|done].
    + auto.
    + rewrite Hf2. injection Hf1 as -> -> ->. cbn. by rewrite <- !app_assoc.
    + rewrite He2, He1. by destruct (me w).
Qed.

Lemma insert_fact_with_room (w : world) (fact : string) :
  length (insert_wait_list (me w)) + 1 < BUFFER_SIZE →
  _insert_fact_without_id fact w =
    (Ret (num_docs (sh w)),
     World (set_num_docs (num_docs (sh w) + 1) (sh w))
       (set_insert_wait_list
          (insert_wait_list (me w) ++ [(num_docs (sh w), fact)]) (me w))).
Proof.
  intros Hlen. destruct w as [s a]. unfold _insert_fact_without_id, _new_fact_id.
  unfold mbind, mret, M_bind, M_ret, get_sh, upd_sh, upd_me, get_me.
  cbn -[BUFFER_SIZE Nat.leb] in *.
  destruct (Nat.leb_spec BUFFER_SIZE
              (length (insert_wait_list a ++ [(num_docs s, fact)]))) as [H|H];
    [rewrite length_app in H; cbn -[BUFFER_SIZE] in H; lia|].
  reflexivity.
Qed.

(** Taking in a fact: with no tf-idf matrix cached, room left in the wait
    list and the document counter below [INT_MAX], where its increment
    does not wrap, [act] gives the fact the next document id, puts it on
    the wait list, and appends one frequency record per distinct token,
    with the token's id in the vocabulary, the document id and the token's
    count.  No token that had an id loses it. *)
Theorem act_takes_in_a_fact (w : world) (fact : string) :
  tfidfs (cache (me w)) = None →
  observation (me w) !! "text" = Some fact →
  length (insert_wait_list (me w)) + 1 < BUFFER_SIZE →
  below_int_max (num_docs (sh w)) →
  let U := unique_tokens (tokenize fact) in
  let fact_id := num_docs (sh w) in
  ∃ ids w',
    act w = (Ret {["id" := "TfidfRetriever"]}, w') ∧
    sh w' = set_num_docs (fact_id + 1) (sh w) ∧
    insert_wait_list (me w') = insert_wait_list (me w) ++ [(fact_id, fact)] ∧
    cnt (me w') = cnt (me w) + 1 ∧
    Forall2 (λ tc i, all_tokens (idx (me w')) !! fst tc = Some i) U ids ∧
    (∀ t j, all_tokens (idx (me w)) !! t = Some j →
            all_tokens (idx (me w')) !! t = Some j) ∧
    freqs w' = (freq_token (idx (me w)) ++ ids,
                freq_fact_id (idx (me w)) ++ replicate (length U) fact_id,
                freq_freq (idx (me w)) ++ map snd U) ∧
    cache (me w') = cache (me w) ∧ link (me w') = link (me w).
Proof.
  intros Ht Ho Hlen _ U fact_id.
  set (w1 := World (set_num_docs (fact_id + 1) (sh w))
               (set_insert_wait_list (insert_wait_list (me w) ++ [(fact_id, fact)])
                  (set_cnt (cnt (me w) + 1) (me w)))).
  destruct (new_freq_loop fact_id U w1) as (ids & w' & Hloop & Hs & Hids & Hm & Hf & He).
  exists ids, w'.
  assert (Hact : act w = (Ret {["id" := "TfidfRetriever"]}, w')).
  { unfold act. rewrite run_bind. unfold get_me at 1. rewrite Ht.
    rewrite run_bind. unfold mret at 1, M_ret at 1. rewrite Ho.
    rewrite run_bind, run_bind. unfold upd_me at 1.
    rewrite run_bind. unfold get_me at 1.
    assert (Hp : ∀ (b : bool) (msg : string),
              (if b then print_info msg else mret tt) = mret tt) by (by intros []).
    rewrite Hp, run_bind. unfold mret at 1, M_ret at 1.
    rewrite run_bind, insert_fact_with_room by done.
    match goal with
    | |- context [for_each ?u ?b ?x] =>
        change (for_each u b x)
          with (for_each U (λ tc, _new_freq (PyStr (fst tc)) fact_id (snd tc)) w1)
    end.
    rewrite Hloop. reflexivity. }
  split_and!; try done.
  - rewrite He. by destruct (me w).
  - rewrite He. by destruct (me w).
  - rewrite He. by destruct (me w).
  - rewrite He. by destruct (me w).
Qed.

End Retriever.

(** ** Choosing the best [max_results] documents *)

(** [a[idx]] when every index is known to be in range. *)
Lemma take_idx_in_range {A : Type} (dflt : A) (a : list A) (idx : list nat) :
  Forall (λ i, i < length a) idx →
  take_idx a idx = Some (map (λ i, nth i a dflt) idx).
Proof.
  intros H. apply mapM_Some. induction H as [|i idx Hi _ IH]; constructor; [|done].
  rewrite nth_lookup. destruct (lookup_lt_is_Some_2 a i Hi) as [x ->]. done.
Qed.

Lemma perm_seq_in_range {A : Type} (a : list A) (idx : list nat) (n : nat) :
  idx ≡ₚ seq 0 n → n <= length a → Forall (λ i, i < length a) idx.
Proof.
  intros Hp Hn. apply Forall_forall. intros i Hi.
  rewrite Hp in Hi. apply elem_of_seq in Hi. lia.
Qed.

Lemma pick_seq {A : Type} (dflt : A) (a : list A) :
  map (λ i, nth i a dflt) (seq 0 (length a)) = a.
Proof.
  apply list_eq. intros i. change (map ?f ?l) with (f <$> l).
  rewrite list_lookup_fmap.
  destruct (decide (i < length a)) as [Hi|Hi].
  - rewrite lookup_seq_lt by done. cbn. rewrite nth_lookup.
    destruct (lookup_lt_is_Some_2 a i Hi) as [x ->]. done.
  - rewrite lookup_seq_ge, lookup_ge_None_2 by lia. done.
Qed.

Lemma pick_pick {A : Type} (da : A) (a : list A) (o s : list nat) :
  Forall (λ i, i < length o) s →
  map (λ i, nth i (map (λ j, nth j a da) o) da) s
  = map (λ j, nth j a da) (map (λ i, nth i o 0) s).
Proof.
  intros H. rewrite map_map. apply map_ext_Forall.
  eapply Forall_impl; [exact H|]. cbn. intros i Hi.
  rewrite (nth_indep _ da (nth 0 a da)) by (rewrite length_map; lia).
  apply (map_nth (λ j, nth j a da)).
Qed.

Lemma sorted_opp (l : list R) :
  StronglySorted Rle (map Ropp l) → StronglySorted Rge l.
Proof.
  induction l as [|x l IH]; cbn; intros H; [constructor|].
  apply StronglySorted_inv in H as [Hs Hall]. constructor; [auto|].
  apply Forall_forall. intros y Hy.
  eapply Forall_forall in Hall; [|apply list_elem_of_In, in_map, list_elem_of_In, Hy].
  lra.
Qed.

(** A descending list that dominates the rest of a permutation of a
    descending list is the beginning of that list. *)
Lemma sorted_prefix_unique (l1 : list R) :
  ∀ (l2 sorted : list R),
    StronglySorted Rge l1 →
    StronglySorted Rge sorted →
    l1 ++ l2 ≡ₚ sorted →
    (∀ x y, x ∈ l1 → y ∈ l2 → (y <= x)%R) →
    l1 = take (length l1) sorted.
Proof.
  induction l1 as [|x l1 IH]; intros l2 sorted H1 Hs Hp Hdom; [done|].
  destruct sorted as [|y sorted].
  { apply Permutation_length in Hp. cbn in Hp. lia. }
  apply StronglySorted_inv in H1 as [H1 Hx].
  apply StronglySorted_inv in Hs as [Hs Hy].
  assert (Hxy : x = y).
  { apply Rle_antisym.
    - assert (Hin : x ∈ y :: sorted) by (rewrite <- Hp; left).
      apply elem_of_cons in Hin as [->|Hin]; [lra|].
      eapply Forall_forall in Hy; [|exact Hin]. lra.
    - assert (Hin : y ∈ (x :: l1) ++ l2) by (rewrite Hp; left).
      cbn in Hin. apply elem_of_cons in Hin as [->|Hin]; [lra|].
      apply elem_of_app in Hin as [Hin|Hin].
      + eapply Forall_forall in Hx; [|exact Hin]. lra.
      + apply Hdom; [left|done]. }
  subst y. cbn. f_equal.
  apply (IH l2); try done.
  - cbn in Hp. by apply Permutation_cons_inv in Hp.
  - intros a b Ha Hb. apply Hdom; [by right|done].
Qed.

Section Selection.

(** numpy's [argsort] and [argpartition], known by their contracts: both
    return a permutation of the positions; [argsort] puts the keys in
    increasing order; [argpartition] puts the key of rank [kth] at position
    [kth], no larger key before it and no smaller key after it. *)
Variable argsort : list R → list nat.
Variable argpartition : list R → nat → list nat.

Hypothesis argsort_perm : ∀ keys, argsort keys ≡ₚ seq 0 (length keys).
Hypothesis argsort_sorted : ∀ keys ks,
  take_idx keys (argsort keys) = Some ks → StronglySorted Rle ks.
Hypothesis argpartition_perm : ∀ keys kth,
  kth < length keys → argpartition keys kth ≡ₚ seq 0 (length keys).
Hypothesis argpartition_pivot : ∀ keys kth ks pivot,
  kth < length keys →
  take_idx keys (argpartition keys kth) = Some ks →
  ks !! kth = Some pivot →
  Forall (λ x, (x <= pivot)%R) (take kth ks) ∧
  Forall (λ x, (pivot <= x)%R) (drop kth ks).

Lemma argsort_pick (keys : list R) :
  StronglySorted Rle (map (λ i, nth i keys 0%R) (argsort keys)).
Proof.
  apply (argsort_sorted keys), take_idx_in_range.
  eapply perm_seq_in_range; [apply argsort_perm|done].
Qed.

Lemma pick_neg (data : list R) (idx : list nat) :
  map (λ i, nth i (map Ropp data) 0%R) idx
  = map Ropp (map (λ i, nth i data 0%R) idx).
Proof.
  rewrite map_map. apply map_ext. intros i.
  transitivity (nth i (map Ropp data) (- 0)%R); [f_equal; lra|apply map_nth].
Qed.

Lemma sort_positions_full (data sorted : list R) (max_results : nat) :
  length data <= max_results →
  sorted ≡ₚ data → StronglySorted Rge sorted →
  let o_sort := argsort (map Ropp data) in
  sort_positions argsort argpartition data max_results = Some o_sort ∧
  o_sort ≡ₚ seq 0 (length data) ∧
  map (λ i, nth i data 0%R) o_sort = take max_results sorted.
Proof.
  intros Hn Hperm Hsorted o_sort.
  assert (Hp : o_sort ≡ₚ seq 0 (length data)).
  { unfold o_sort. rewrite argsort_perm, length_map. done. }
  split_and!; [|done|].
  - unfold sort_positions. by destruct (Nat.leb_spec (length data) max_results); [|lia].
  - set (scores := map _ o_sort).
    assert (Hsc : scores ≡ₚ data).
    { unfold scores. etransitivity; [apply Permutation_map, Hp|].
      by rewrite pick_seq. }
    rewrite (sorted_prefix_unique scores [] sorted).
    + rewrite (Permutation_length Hsc), <- (Permutation_length Hperm).
      by rewrite !firstn_all2 by (rewrite ?(Permutation_length Hperm); lia).
    + apply sorted_opp. unfold scores. rewrite <- pick_neg. apply argsort_pick.
    + done.
    + rewrite app_nil_r. by rewrite Hsc.
    + intros x y _ Hy. by apply elem_of_nil in Hy.
Qed.

Lemma sort_positions_partition (data sorted : list R) (max_results : nat) :
  max_results < length data →
  sorted ≡ₚ data → StronglySorted Rge sorted →
  let neg := map Ropp data in
  let o := take max_results (argpartition neg max_results) in
  let o_sort := map (λ i, nth i o 0) (argsort (map (λ i, nth i neg 0%R) o)) in
  sort_positions argsort argpartition data max_results = Some o_sort ∧
  o_sort ≡ₚ o ∧
  NoDup o_sort ∧
  Forall (λ i, i < length data) o_sort ∧
  map (λ i, nth i data 0%R) o_sort = take max_results sorted.
Proof.
  intros Hk Hperm Hsorted neg o o_sort.
  set (p := argpartition neg max_results).
  assert (Hneg : length neg = length data) by apply length_map.
  assert (Hp : p ≡ₚ seq 0 (length data)).
  { unfold p. rewrite argpartition_perm by lia. by rewrite Hneg. }
  assert (Hlp : length p = length data).
  { by rewrite (Permutation_length Hp), length_seq. }
  assert (Hlo : length o = max_results).
  { unfold o. fold p. rewrite length_take. lia. }
  assert (Hpr : Forall (λ i, i < length data) p).
  { eapply perm_seq_in_range; [exact Hp|done]. }
  assert (Hor : Forall (λ i, i < length data) o) by apply Forall_take, Hpr.
  set (sub := map (λ i, nth i neg 0%R) o).
  assert (Hs : argsort sub ≡ₚ seq 0 (length o)).
  { rewrite argsort_perm. unfold sub. by rewrite length_map. }
  assert (Hsr : Forall (λ i, i < length o) (argsort sub)).
  { eapply perm_seq_in_range; [exact Hs|done]. }
  assert (Hoo : o_sort ≡ₚ o).
  { unfold o_sort. fold sub. etransitivity; [apply Permutation_map, Hs|].
    by rewrite pick_seq. }
  assert (Hsc : map (λ i, nth i data 0%R) o_sort
                ≡ₚ take max_results (map (λ i, nth i data 0%R) p)).
  { rewrite firstn_map. by apply Permutation_map. }
  split_and!.
  - unfold sort_positions. fold neg. destruct (Nat.leb_spec (length data) max_results); [lia|].
    fold o. rewrite (take_idx_in_range 0%R neg o) by (by rewrite Hneg).
    cbn. fold sub. by rewrite (take_idx_in_range 0 o (argsort sub)).
  - done.
  - rewrite Hoo. unfold o. fold p.
    assert (Hnd : NoDup p) by (rewrite Hp; apply NoDup_seq).
    rewrite <- (take_drop max_results p) in Hnd.
    by apply NoDup_app in Hnd as [? _].
  - by rewrite Hoo.
  - set (scores := map _ o_sort) in *. set (dp := map _ p) in *.
    destruct (lookup_lt_is_Some_2 (map Ropp dp) max_results) as [pivot Hpivot].
    { unfold dp. rewrite !length_map. lia. }
    destruct (argpartition_pivot neg max_results (map Ropp dp) pivot) as [Hlo' Hhi'].
    + lia.
    + fold p. rewrite (take_idx_in_range 0%R neg p) by (by rewrite Hneg).
      unfold neg, dp. by rewrite pick_neg.
    + done.
    + rewrite (sorted_prefix_unique scores (drop max_results dp) sorted).
      * unfold scores. rewrite length_map, (Permutation_length Hoo), Hlo. done.
      * apply sorted_opp. unfold scores, o_sort. rewrite <- pick_neg.
        rewrite <- (pick_pick 0%R _ o) by done. apply argsort_pick.
      * done.
      * rewrite Hsc, take_drop, Hperm. unfold dp.
        etransitivity; [apply Permutation_map, Hp|]. by rewrite pick_seq.
      * intros x y Hx Hy. rewrite Hsc in Hx.
        rewrite firstn_map in Hlo'. rewrite skipn_map in Hhi'.
        eapply Forall_forall in Hlo';
          [|apply list_elem_of_In, in_map, list_elem_of_In, Hx].
        eapply Forall_forall in Hhi';
          [|apply list_elem_of_In, in_map, list_elem_of_In, Hy].
        cbn in *. lra.
Qed.

(** The selection step of [retrieve], lines 382 to 388, taken on its own.
    For every score vector [data] with its document ids [indices]:
    when there are at most [max_results] scores the positions are those of
    a full sort of the negated scores, and otherwise they are a sort of the
    first [max_results] positions of a partition around rank
    [max_results].  On both paths the positions are distinct, the scores
    returned are the first [max_results] of the scores in descending order
    (all of them when there are fewer), and every returned id is the id at
    the position of its score.  With scores 5, 3, 4, 1, 2 for documents
    0 to 4 and [max_results = 2] the result is the scores 5, 4 of the
    documents 0, 2. *)
Theorem select_top_returns_best :
  (∀ (indices : list nat) (data sorted : list R) (max_results : nat),
     length indices = length data →
     sorted ≡ₚ data → StronglySorted Rge sorted →
     ∃ o_sort doc_ids,
       select_top argsort argpartition indices data max_results
         = Some (take max_results sorted, doc_ids) ∧
       (length data <= max_results → o_sort = argsort (map Ropp data)) ∧
       (max_results < length data →
          o_sort ≡ₚ take max_results (argpartition (map Ropp data) max_results)) ∧
       NoDup o_sort ∧
       take_idx data o_sort = Some (take max_results sorted) ∧
       take_idx indices o_sort = Some doc_ids) ∧
  select_top argsort argpartition [0; 1; 2; 3; 4] [5; 3; 4; 1; 2]%R 2
    = Some ([5; 4]%R, [0; 2]).
Proof.
  assert (Hgen : ∀ (indices : list nat) (data sorted : list R) (max_results : nat),
     length indices = length data →
     sorted ≡ₚ data → StronglySorted Rge sorted →
     ∃ o_sort doc_ids,
       select_top argsort argpartition indices data max_results
         = Some (take max_results sorted, doc_ids) ∧
       (length data <= max_results → o_sort = argsort (map Ropp data)) ∧
       (max_results < length data →
          o_sort ≡ₚ take max_results (argpartition (map Ropp data) max_results)) ∧
       NoDup o_sort ∧
       take_idx data o_sort = Some (take max_results sorted) ∧
       take_idx indices o_sort = Some doc_ids).
  { intros indices data sorted k Hlen Hperm Hsorted.
    destruct (Nat.le_gt_cases (length data) k) as [Hn|Hn].
    - destruct (sort_positions_full data sorted k Hn Hperm Hsorted) as (Hc & Hp & Hsc).
      set (o_sort := argsort (map Ropp data)) in *.
      assert (Hr : Forall (λ i, i < length data) o_sort)
        by (eapply perm_seq_in_range; [exact Hp|done]).
      exists o_sort, (map (λ i, nth i indices 0) o_sort).
      unfold select_top. rewrite Hc. cbn.
      rewrite (take_idx_in_range 0%R data o_sort Hr), Hsc. cbn.
      rewrite (take_idx_in_range 0 indices o_sort) by (by rewrite Hlen). cbn.
      split_and!; try done; [lia|].
      rewrite Hp. apply NoDup_seq.
    - destruct (sort_positions_partition data sorted k Hn Hperm Hsorted)
        as (Hc & Hoo & Hnd & Hr & Hsc).
      set (o_sort := map _ (argsort _)) in *.
      exists o_sort, (map (λ i, nth i indices 0) o_sort).
      unfold select_top. rewrite Hc. cbn.
      rewrite (take_idx_in_range 0%R data o_sort Hr), Hsc. cbn.
      rewrite (take_idx_in_range 0 indices o_sort) by (by rewrite Hlen). cbn.
      split_and!; try done. lia. }
  split; [exact Hgen|].
  destruct (Hgen [0; 1; 2; 3; 4] [5; 3; 4; 1; 2]%R [5; 4; 3; 2; 1]%R 2)
    as (o_sort & doc_ids & -> & _ & _ & _ & Hsc & Hids).
  - done.
  - apply perm_skip. etransitivity; [apply perm_swap|].
    do 2 apply perm_skip. apply perm_swap.
  - repeat (constructor; [|repeat constructor; lra]). constructor.
  - cbn [take firstn]. do 2 f_equal.
    apply mapM_Some in Hsc. cbn in Hsc.
    apply Forall2_cons_inv_r in Hsc as (a & o1 & Ha & Hsc & ->).
    apply Forall2_cons_inv_r in Hsc as (b & o2 & Hb & Hsc & ->).
    apply Forall2_nil_inv_r in Hsc as ->.
    assert (a = 0) as ->.
    { destruct a as [|[|[|[|[|a]]]]]; cbn in Ha; try done;
        injection Ha as Ha; lra. }
    assert (b = 2) as ->.
    { destruct b as [|[|[|[|[|b]]]]]; cbn in Hb; try done;
        injection Hb as Hb; lra. }
    vm_compute in Hids. congruence.
Qed.

End Selection.

(** ** The model of [np.unique] *)

Section Unique.

#[local] Set Warnings "-clear-no-such-hyp".

Context {A : Type} (eqb ltb : A → A → bool).
Hypothesis eqb_eq : ∀ x y, eqb x y = true ↔ x = y.
Hypothesis ltb_irrefl : ∀ x, ltb x x = false.
Hypothesis ltb_trans : ∀ x y z, ltb x y = true → ltb y z = true → ltb x z = true.
Hypothesis ltb_total : ∀ x y, eqb x y = false → ltb x y = false → ltb y x = true.

Lemma increasing_above (y : A) (c : nat) (acc : list (A * nat)) (x : A) (d : nat) :
  increasing ltb ((y, c) :: acc) → (x, d) ∈ acc → ltb y x = true.
Proof.
  intros H Hin. apply StronglySorted_inv in H as [_ Hall].
  eapply Forall_forall in Hall; [|exact Hin]. done.
Qed.

Lemma count_in_spec (x : A) (acc : list (A * nat)) :
  increasing ltb acc →
  increasing ltb (count_in eqb ltb x acc) ∧
  ∀ y c, (y, c) ∈ count_in eqb ltb x acc ↔
         (y ≠ x ∧ (y, c) ∈ acc) ∨
         (y = x ∧ ((∃ c0, (x, c0) ∈ acc ∧ c = S c0) ∨
                   ((∀ c0, (x, c0) ∉ acc) ∧ c = 1))).
Proof.
  induction acc as [|[y0 c0] acc IH]; intros Hinc.
  { split; [repeat constructor|]. intros y c. cbn. set_unfold. naive_solver. }
  assert (Hkeys : ∀ z d, (z, d) ∈ acc → ltb y0 z = true)
    by (intros z d; apply (increasing_above y0 c0 acc z d Hinc)).
  assert (Hnot : ∀ d, (y0, d) ∉ acc).
  { intros d Hin. specialize (Hkeys _ _ Hin). by rewrite ltb_irrefl in Hkeys. }
  pose proof Hinc as Hinc0.
  apply StronglySorted_inv in Hinc as [Hinc' Hall].
  cbn [count_in]. destruct (eqb x y0) eqn:Heq.
  - apply eqb_eq in Heq as ->. split.
    + constructor; [done|]. exact Hall.
    + intros y c. set_unfold. naive_solver.
  - assert (Hne : x ≠ y0).
    { intros ->. by rewrite (proj2 (eqb_eq y0 y0)) in Heq. }
    destruct (ltb x y0) eqn:Hlt.
    + assert (Hno : ∀ d, (x, d) ∉ acc).
      { intros d Hin. specialize (Hkeys _ _ Hin).
        pose proof (ltb_trans _ _ _ Hlt Hkeys) as Hxx. by rewrite ltb_irrefl in Hxx. }
      split.
      * constructor; [exact Hinc0|]. constructor; [exact Hlt|].
        apply Forall_forall. intros [z d] Hin. cbn.
        eapply ltb_trans; [exact Hlt|]. by eapply Hkeys.
      * intros y c. set_unfold. naive_solver.
    + pose proof (ltb_total _ _ Heq Hlt) as Hgt.
      destruct (IH Hinc') as [IHs IHe]. split.
      * constructor; [done|]. apply Forall_forall. intros [z d] Hin. cbn.
        apply IHe in Hin as [[_ Hin]|[-> _]]; [by eapply Hkeys|done].
      * intros y c. rewrite elem_of_cons, IHe. set_unfold. naive_solver.
Qed.

Lemma occurrences_snoc (x y : A) (l : list A) :
  occurrences eqb x (l ++ [y]) = occurrences eqb x l + (if eqb x y then 1 else 0).
Proof.
  unfold occurrences. rewrite List.filter_app, length_app. cbn.
  by destruct (eqb x y).
Qed.

Lemma count_in_counts (seen : list A) (acc : list (A * nat)) (x : A) :
  counts_of eqb ltb seen acc → counts_of eqb ltb (seen ++ [x]) (count_in eqb ltb x acc).
Proof.
  intros [Hinc Hacc]. destruct (count_in_spec x acc Hinc) as [Hs He].
  split; [done|]. intros y c. rewrite He, occurrences_snoc. split.
  - intros [[Hne Hin]|[-> [(c1 & Hin & ->)|[Hno ->]]]].
    + apply Hacc in Hin as [Hpos ->].
      destruct (eqb y x) eqn:E; [by apply eqb_eq in E|]. lia.
    + apply Hacc in Hin as [Hpos ->].
      rewrite (proj2 (eqb_eq x x)) by done. lia.
    + rewrite (proj2 (eqb_eq x x)) by done.
      destruct (occurrences eqb x seen) as [|n] eqn:E; [lia|].
      exfalso. apply (Hno (S n)), Hacc. lia.
  - intros [Hpos ->]. destruct (eqb y x) eqn:E.
    + apply eqb_eq in E as ->. right. split; [done|].
      destruct (occurrences eqb x seen) as [|n] eqn:E.
      * right. split; [|done]. intros c0 Hin. apply Hacc in Hin. lia.
      * left. exists (S n). split; [|lia]. apply Hacc. lia.
    + left. split; [by intros ->; rewrite (proj2 (eqb_eq x x)) in E|].
      apply Hacc. lia.
Qed.

(** [np_unique] lists the distinct elements in strictly increasing ltb order,
    each with the number of times it occurs. *)
Lemma np_unique_spec (l : list A) :
  increasing ltb (np_unique eqb ltb l) ∧
  ∀ x c, (x, c) ∈ np_unique eqb ltb l ↔ 0 < c ∧ c = occurrences eqb x l.
Proof.
  unfold np_unique.
  assert (H : ∀ l seen acc, counts_of eqb ltb seen acc →
            counts_of eqb ltb (seen ++ l) (fold_left (λ acc x, count_in eqb ltb x acc) l acc)).
  { clear l. induction l as [|x l IH]; intros seen acc Hc; cbn.
    - by rewrite app_nil_r.
    - rewrite (cons_middle x seen l), app_assoc. apply IH. by apply count_in_counts. }
  apply (H l [] []). split; [constructor|].
  intros x c. cbn. split; [by intros ?%elem_of_nil|lia].
Qed.

End Unique.

Lemma ascii_compare_refl (a : ascii) : Ascii.compare a a = Eq.
Proof. apply N.compare_refl. Qed.

Lemma ascii_compare_trans (a b c : ascii) :
  Ascii.compare a b = Lt → Ascii.compare b c = Lt → Ascii.compare a c = Lt.
Proof.
  unfold Ascii.compare. rewrite !N.compare_lt_iff. apply N.lt_trans.
Qed.

Lemma string_compare_refl (s : string) : String.compare s s = Eq.
Proof.
  induction s as [|a s IH]; cbn; [done|]. by rewrite ascii_compare_refl.
Qed.

Lemma string_compare_trans (x : string) :
  ∀ y z, String.compare x y = Lt → String.compare y z = Lt → String.compare x z = Lt.
Proof.
  induction x as [|a x IH]; intros [|b y] [|c z]; cbn; try done.
  destruct (Ascii.compare a b) eqn:Hab; destruct (Ascii.compare b c) eqn:Hbc;
    try done.
  - apply Ascii.compare_eq_iff in Hab as ->. apply Ascii.compare_eq_iff in Hbc as ->.
    rewrite ascii_compare_refl. apply IH.
  - apply Ascii.compare_eq_iff in Hab as ->. by rewrite Hbc.
  - apply Ascii.compare_eq_iff in Hbc as <-. by rewrite Hab.
  - by rewrite (ascii_compare_trans a b c).
Qed.

(** [unique_tokens] lists the distinct tokens in increasing order, each
    with the number of times it occurs. *)
Lemma unique_tokens_spec (l : list string) :
  increasing String.ltb (unique_tokens l) ∧
  ∀ x c, (x, c) ∈ unique_tokens l ↔ 0 < c ∧ c = occurrences String.eqb x l.
Proof.
  apply np_unique_spec.
  - apply String.eqb_eq.
  - intros x. unfold String.ltb. by rewrite string_compare_refl.
  - intros x y z. unfold String.ltb.
    destruct (String.compare x y) eqn:Hxy; try done.
    destruct (String.compare y z) eqn:Hyz; try done.
    by rewrite (string_compare_trans x y z).
  - intros x y Heq Hlt. unfold String.ltb in *.
    rewrite String.compare_antisym.
    destruct (String.compare x y) eqn:Hxy; try done.
    apply String.compare_eq_iff in Hxy as ->. by rewrite String.eqb_refl in Heq.
Qed.

Lemma unique_ids_spec (l : list nat) :
  increasing Nat.ltb (unique_ids l) ∧
  ∀ x c, (x, c) ∈ unique_ids l ↔ 0 < c ∧ c = occurrences Nat.eqb x l.
Proof.
  apply np_unique_spec.
  - apply Nat.eqb_eq.
  - apply Nat.ltb_irrefl.
  - intros x y z. rewrite !Nat.ltb_lt. lia.
  - intros x y. rewrite Nat.eqb_neq, Nat.ltb_ge, Nat.ltb_lt. lia.
Qed.

(** ** The stand-ins meet the contracts *)

Lemma Rleb_true (x y : R) : Rleb x y = true ↔ (x <= y)%R.
Proof. unfold Rleb. destruct (Rle_dec x y); split; (done || lra). Qed.

Lemma insert_by_perm (keys : list R) (i : nat) (l : list nat) :
  insert_by keys i l ≡ₚ i :: l.
Proof.
  induction l as [|j l IH]; cbn; [done|].
  destruct (Rleb _ _); [done|].
  rewrite IH. apply perm_swap.
Qed.

Lemma insert_by_sorted (keys : list R) (i : nat) (l : list nat) :
  StronglySorted Rle (map (λ j, nth j keys 0%R) l) →
  StronglySorted Rle (map (λ j, nth j keys 0%R) (insert_by keys i l)).
Proof.
  induction l as [|j l IH]; cbn; intros H.
  - repeat constructor.
  - apply StronglySorted_inv in H as [Hs Hall].
    destruct (Rleb _ _) eqn:Hle; cbn.
    + apply Rleb_true in Hle. constructor; [by constructor|].
      constructor; [done|]. eapply Forall_impl; [exact Hall|]. cbn. intros; lra.
    + assert (Hlt : (nth j keys 0%R <= nth i keys 0%R)%R).
      { destruct (Rle_dec (nth i keys 0%R) (nth j keys 0%R)) as [Hc|Hc]; [|lra].
        apply Rleb_true in Hc. congruence. }
      constructor; [auto|].
      apply Forall_forall. intros x Hx.
      apply list_elem_of_In, in_map_iff in Hx as (k & <- & Hk).
      apply list_elem_of_In in Hk. rewrite insert_by_perm in Hk.
      apply elem_of_cons in Hk as [->|Hk]; [done|].
      eapply Forall_forall in Hall; [exact Hall|].
      apply list_elem_of_In, (in_map (λ j, nth j keys 0%R)), list_elem_of_In, Hk.
Qed.

Lemma insertion_argsort_perm (keys : list R) :
  insertion_argsort keys ≡ₚ seq 0 (length keys).
Proof.
  unfold insertion_argsort. induction (seq 0 (length keys)) as [|i l IH]; cbn; [done|].
  by rewrite insert_by_perm, IH.
Qed.

Lemma insertion_argsort_sorted (keys ks : list R) :
  take_idx keys (insertion_argsort keys) = Some ks → StronglySorted Rle ks.
Proof.
  rewrite (take_idx_in_range 0%R).
  - intros [= <-]. unfold insertion_argsort.
    induction (seq 0 (length keys)) as [|i l IH]; cbn; [constructor|].
    by apply insert_by_sorted.
  - eapply perm_seq_in_range; [apply insertion_argsort_perm|done].
Qed.

Lemma sort_argpartition_perm (keys : list R) (kth : nat) :
  kth < length keys → sort_argpartition keys kth ≡ₚ seq 0 (length keys).
Proof. intros _. apply insertion_argsort_perm. Qed.

Lemma sorted_lookup_le (ks : list R) :
  StronglySorted Rle ks →
  ∀ i j x y, i <= j → ks !! i = Some x → ks !! j = Some y → (x <= y)%R.
Proof.
  induction 1 as [|a ks Hs IH Hall]; intros i j x y Hij Hi Hj.
  - by rewrite lookup_nil in Hi.
  - destruct i as [|i], j as [|j]; cbn in *; simplify_eq; try lia.
    + lra.
    + eapply Forall_forall in Hall; [exact Hall|]. by eapply list_elem_of_lookup_2.
    + eapply IH; [|done..]. lia.
Qed.

Lemma sort_argpartition_pivot (keys : list R) (kth : nat) (ks : list R) (pivot : R) :
  kth < length keys →
  take_idx keys (sort_argpartition keys kth) = Some ks →
  ks !! kth = Some pivot →
  Forall (λ x, (x <= pivot)%R) (take kth ks) ∧
  Forall (λ x, (pivot <= x)%R) (drop kth ks).
Proof.
  intros _ Hks Hp. apply insertion_argsort_sorted in Hks.
  split; apply Forall_lookup; intros i x Hi.
  - apply lookup_take_Some in Hi as [Hi Hlt].
    eapply (sorted_lookup_le ks Hks i kth); [lia|done..].
  - rewrite lookup_drop in Hi.
    eapply (sorted_lookup_le ks Hks kth (kth + i)); [lia|done..].
Qed.

(** * Further properties *)

Section Runs.

Variable tokenize : string → list string.
Variable argsort : list R → list nat.
Variable argpartition : list R → nat → list nat.

Ltac exec :=
  unfold mbind, mret, M_bind, M_ret, raise, block, get_me, get_sh, upd_me, upd_sh,
    or_raise, lift, undefined_method in *;
  cbn in *.

(** ** The lock after a failed flush *)

Lemma flush_of_pairs (blocking : bool) (w : world) (t : table) :
  insert_wait_list (me w) ≠ [] →
  db_lock (sh w) = false →
  db (sh w) !! DOC_TABLE_NAME = Some t →
  columns t = columns CREATE_TABLE →
  _flush_db_wait_list blocking w
  = (Raise (ProgrammingError "Incorrect number of bindings supplied"),
     World (set_db_lock true (sh w)) (me w)).
Proof.
  destruct w as [s a]. cbn. intros Hl Hk Ht Hc.
  unfold _flush_db_wait_list, acquire. exec.
  destruct (insert_wait_list a) as [|p l] eqn:El; [done|].
  cbn. rewrite Hk. cbn. unfold executemany. exec. rewrite Ht.
  unfold has_column. rewrite Hc. cbn.
  rewrite !bool_decide_eq_true_2 by set_solver. cbn. reflexivity.
Qed.

(** A flush that fails leaves the lock held: the wait list and the
    document table are what they were, every later blocking flush waits
    for ever, and a later non-blocking one returns without writing. *)
Theorem failed_flush_keeps_the_lock (blocking : bool) (w : world) (t : table) :
  insert_wait_list (me w) ≠ [] →
  db_lock (sh w) = false →
  db (sh w) !! DOC_TABLE_NAME = Some t →
  columns t = columns CREATE_TABLE →
  let w' := World (set_db_lock true (sh w)) (me w) in
  _flush_db_wait_list blocking w
    = (Raise (ProgrammingError "Incorrect number of bindings supplied"), w') ∧
  _flush_db_wait_list true w' = (Block, w') ∧
  _flush_db_wait_list false w' = (Ret tt, w').
Proof.
  intros Hl Hk Ht Hc w'. split; [by eapply flush_of_pairs|].
  destruct w as [s a]. cbn in *. subst w'.
  unfold _flush_db_wait_list, acquire. exec.
  destruct (insert_wait_list a) as [|p l] eqn:El; [done|]. by cbn.
Qed.

(** ** What no call does *)

Lemma stays_bind {A B : Type} (P : world → Prop) (c : M A) (f : A → M B) :
  stays P c → (∀ a, stays P (f a)) → stays P (c ≫= f).
Proof.
  intros Hc Hf w Hw. rewrite run_bind. specialize (Hc w Hw).
  destruct (c w) as [[a|e|] w']; cbn in *; [by apply Hf|done..].
Qed.

Lemma stays_ret {A : Type} (P : world → Prop) (a : A) : stays P (mret a).
Proof. by intros w Hw. Qed.

Lemma stays_raise {A : Type} (P : world → Prop) (e : exn) : stays P (raise (A := A) e).
Proof. by intros w Hw. Qed.

Lemma stays_block {A : Type} (P : world → Prop) : stays P (block (A := A)).
Proof. by intros w Hw. Qed.

Lemma stays_undefined {A : Type} (P : world → Prop) (name : string) :
  stays P (undefined_method (A := A) name).
Proof. by intros w Hw. Qed.

Lemma stays_get_me (P : world → Prop) : stays P get_me.
Proof. by intros w Hw. Qed.

Lemma stays_get_sh (P : world → Prop) : stays P get_sh.
Proof. by intros w Hw. Qed.

Lemma stays_upd_sh (P : world → Prop) (f : shared → shared) :
  (∀ w, P w → P (World (f (sh w)) (me w))) → stays P (upd_sh f).
Proof. intros Hf w Hw. by apply Hf. Qed.

Lemma stays_upd_me (P : world → Prop) (f : agent → agent) :
  (∀ w, P w → P (World (sh w) (f (me w)))) → stays P (upd_me f).
Proof. intros Hf w Hw. by apply Hf. Qed.

Lemma stays_or_raise {A : Type} (P : world → Prop) (e : exn) (o : option A) :
  stays P (or_raise e o).
Proof. destruct o; [apply stays_ret|apply stays_raise]. Qed.

Lemma stays_lift {A : Type} (P : world → Prop) (o : outcome A) : stays P (lift o).
Proof. by intros w Hw. Qed.

Lemma stays_for_each {A : Type} (P : world → Prop) (l : list A) (body : A → M unit) :
  (∀ x, stays P (body x)) → stays P (for_each l body).
Proof.
  intros Hb. induction l as [|x l IH]; cbn [for_each]; [apply stays_ret|].
  apply stays_bind; [apply Hb|done].
Qed.

Lemma stays_map_M {A B : Type} (P : world → Prop) (f : A → M B) (l : list A) :
  (∀ x, stays P (f x)) → stays P (map_M f l).
Proof.
  intros Hf. induction l as [|x l IH]; cbn [map_M]; [apply stays_ret|].
  apply stays_bind; [apply Hf|]. intros y.
  apply stays_bind; [apply IH|]. intros ys. apply stays_ret.
Qed.

Create HintDb stays.
#[local] Hint Resolve stays_ret stays_raise stays_block stays_undefined stays_get_me
  stays_get_sh stays_or_raise stays_lift : stays.

(** Breaks [stays P c] down along the shape of [c]; [side] proves that an
    update keeps [P]. *)
Ltac stays_step side :=
  lazymatch goal with
  | |- stays _ (mbind _ _) => apply stays_bind; [|intros ?]
  | |- stays _ (upd_me _) => apply stays_upd_me; side
  | |- stays _ (upd_sh _) => apply stays_upd_sh; side
  | |- stays _ (for_each _ _) => apply stays_for_each; intros ?
  | |- stays _ (map_M _ _) => apply stays_map_M; intros ?
  | |- stays _ (match ?x with _ => _ end) => destruct x
  | |- stays _ _ => solve [auto with stays]
  end.

Ltac unstored_side :=
  intros [[? ? ? ? ? ? ?] [? ? ? ? ? ?]] [? ?]; split; cbn in *;
  solve [done | by apply prefix_app_r].

Ltac unstored_auto := repeat stays_step unstored_side.

Section Unstored.

Variable tbl : gmap string table.
Variable pending : list (nat * string).

Lemma unstored_flush (blocking : bool) :
  stays (unstored tbl pending) (_flush_db_wait_list blocking).
Proof.
  intros w [Hd Hp].
  destruct (flush_cases blocking w) as [[_ ->]|[(_ & _ & ->)|(_ & _ & e & ->)]];
    by split.
Qed.

Lemma unstored_token2id (token : pyobj) : stays (unstored tbl pending) (_token2id token).
Proof. unfold _token2id. unstored_auto. Qed.

Lemma unstored_new_freq (token : pyobj) (fact_id freq : nat) :
  stays (unstored tbl pending) (_new_freq token fact_id freq).
Proof. unfold _new_freq. pose proof unstored_token2id. unstored_auto. Qed.

Lemma unstored_get_count_matrix : stays (unstored tbl pending) _get_count_matrix.
Proof. unfold _get_count_matrix. unstored_auto. Qed.

Lemma unstored_get_tfidf (m : sparse nat) :
  stays (unstored tbl pending) (_get_tfidf_from_count_matrix m).
Proof. unfold _get_tfidf_from_count_matrix. unstored_auto. Qed.

Lemma unstored_compute_tfidf : stays (unstored tbl pending) compute_tfidf.
Proof.
  unfold compute_tfidf. apply stays_bind; [apply unstored_get_count_matrix|].
  intros m. apply unstored_get_tfidf.
Qed.

Lemma unstored_insert_fact (fact : string) :
  stays (unstored tbl pending) (_insert_fact_without_id fact).
Proof.
  unfold _insert_fact_without_id, _new_fact_id. pose proof unstored_flush.
  unstored_auto.
Qed.

Lemma unstored_act : stays (unstored tbl pending) (act tokenize).
Proof.
  unfold act, del_attr, print_info.
  pose proof unstored_insert_fact. pose proof unstored_new_freq. unstored_auto.
Qed.

Lemma unstored_save : stays (unstored tbl pending) save.
Proof. unfold save. pose proof unstored_get_count_matrix. unstored_auto. Qed.

Lemma unstored_load : stays (unstored tbl pending) load.
Proof. unfold load. pose proof unstored_get_tfidf. unstored_auto. Qed.

Lemma unstored_share : stays (unstored tbl pending) share.
Proof. unfold share. unstored_auto. Qed.

Lemma unstored_fetch_documents (doc_ids : list nat) :
  stays (unstored tbl pending) (fetch_documents doc_ids).
Proof.
  induction doc_ids as [|d ds IH]; cbn [fetch_documents]; [apply stays_ret|].
  unfold execute_fetchall. unstored_auto.
Qed.

Lemma unstored_retrieve (query : string) (max_results : nat) :
  stays (unstored tbl pending) (retrieve tokenize argsort argpartition query max_results).
Proof.
  unfold retrieve.
  pose proof unstored_flush. pose proof unstored_compute_tfidf.
  pose proof unstored_token2id. pose proof unstored_fetch_documents.
  unstored_auto.
Qed.

Lemma unstored_shutdown : stays (unstored tbl pending) shutdown.
Proof.
  unfold shutdown, queue_put, print_info, join.
  pose proof unstored_flush. pose proof unstored_save. unstored_auto.
Qed.

End Unstored.

(** No call on an agent stores a fact: whatever is called, the document
    table is afterwards what it was before, and everything that was on the
    wait list is still there, in its place. *)
Theorem facts_never_reach_the_table (c : call) (w : world) :
  db (sh (after tokenize argsort argpartition c w)) = db (sh w) ∧
  insert_wait_list (me w)
    `prefix_of` insert_wait_list (me (after tokenize argsort argpartition c w)).
Proof.
  assert (H : unstored (db (sh w)) (insert_wait_list (me w)) w) by done.
  destruct c; cbn [after].
  - by destruct w as [s []].
  - by apply unstored_act.
  - by apply unstored_retrieve.
  - by apply unstored_compute_tfidf.
  - by apply unstored_save.
  - by apply unstored_load.
  - by apply unstored_share.
  - by apply unstored_shutdown.
Qed.

(** ** Pending facts *)

(** Once a fact is on the wait list neither [retrieve] nor [shutdown]
    returns: each starts with a blocking flush, which fails or waits.  The
    agent is left as it was, nothing is put on a queue, and no file is
    written. *)
Theorem pending_facts_stop_retrieve_and_shutdown (w : world) (query : string)
    (max_results : nat) :
  insert_wait_list (me w) ≠ [] →
  (∃ o w', retrieve tokenize argsort argpartition query max_results w = (o, w') ∧
           (∀ r, o ≠ Ret r) ∧ me w' = me w) ∧
  (∃ o w', shutdown w = (o, w') ∧
           (∀ u, o ≠ Ret u) ∧ me w' = me w ∧
           queues (sh w') = queues (sh w) ∧
           shared_queue (sh w') = shared_queue (sh w) ∧
           token_file (sh w') = token_file (sh w) ∧
           retriever_file (sh w') = retriever_file (sh w)).
Proof.
  intros Hl. split.
  - unfold retrieve. rewrite run_bind.
    destruct (flush_cases true w) as [[Hn _]|[(_ & _ & ->)|(_ & _ & e & ->)]];
      [done|by eexists _, _..].
  - unfold shutdown. rewrite run_bind.
    destruct (flush_cases true w) as [[Hn _]|[(_ & _ & ->)|(_ & _ & e & ->)]];
      [done|by eexists _, _..].
Qed.

(** The fact that fills the wait list up to [BUFFER_SIZE] makes [act]
    fail when the lock is free: the fact is counted, it has taken the next
    document id and it is on the wait list, but the flush raises before
    any of its tokens is recorded, and the lock stays held.  The document
    counter is taken below [INT_MAX], where its increment does not
    wrap. *)
Theorem act_fails_when_the_buffer_fills (w : world) (fact : string) (t : table) :
  tfidfs (cache (me w)) = None →
  observation (me w) !! "text" = Some fact →
  (BUFFER_SIZE <= length (insert_wait_list (me w)) + 1)%nat →
  below_int_max (num_docs (sh w)) →
  db_lock (sh w) = false →
  db (sh w) !! DOC_TABLE_NAME = Some t →
  columns t = columns CREATE_TABLE →
  act tokenize w =
    (Raise (ProgrammingError "Incorrect number of bindings supplied"),
     World (set_db_lock true (set_num_docs (num_docs (sh w) + 1) (sh w)))
       (set_insert_wait_list
          (insert_wait_list (me w) ++ [(num_docs (sh w), fact)])
          (set_cnt (cnt (me w) + 1) (me w)))).
Proof.
  intros Ht Ho Hlen _ Hk Hdb Hc.
  unfold act. rewrite run_bind. unfold get_me at 1. rewrite Ht.
  rewrite run_bind. unfold mret at 1, M_ret at 1. rewrite Ho.
  rewrite run_bind, run_bind. unfold upd_me at 1.
  rewrite run_bind. unfold get_me at 1.
  assert (Hp : ∀ (b : bool) (msg : string),
            (if b then print_info msg else mret tt) = mret tt) by (by intros []).
  rewrite Hp, run_bind. unfold mret at 1, M_ret at 1.
  rewrite run_bind.
  unfold _insert_fact_without_id, _new_fact_id.
  rewrite run_bind, run_bind. unfold get_sh at 1. rewrite run_bind.
  unfold upd_sh at 1. unfold mret at 1, M_ret at 1.
  rewrite run_bind. unfold upd_me at 1.
  rewrite run_bind. unfold get_me at 1. rewrite run_bind.
  cbn [me sh insert_wait_list set_insert_wait_list set_cnt].
  destruct (Nat.leb_spec BUFFER_SIZE
              (length (insert_wait_list (me w) ++ [(num_docs (sh w), fact)]))) as [_|H];
    [|rewrite length_app in H; cbn [length] in H; lia].
  erewrite flush_of_pairs; [reflexivity| | | |].
  - cbn. by destruct (insert_wait_list (me w)).
  - done.
  - exact Hdb.
  - exact Hc.
Qed.

(** ** Saving and loading *)

(** [save] writes the vocabulary before it asks for the count matrix.
    With a count matrix cached both files are written and the agent is
    unchanged; without one the token file is already rewritten when
    [AttributeError] is raised, and the matrix file is the old one. *)
Theorem save_writes_the_vocabulary_first (w : world) :
  let s1 := set_token_file (Some (all_tokens (idx (me w)))) (sh w) in
  save w =
    match count_matrix (cache (me w)) with
    | Some m => (Ret tt, World (set_retriever_file (Some m) s1) (me w))
    | None => (Raise (AttributeError "len"), World s1 (me w))
    end.
Proof.
  destruct w as [s a]. unfold save. rewrite run_bind. unfold get_me at 1.
  rewrite run_bind. unfold upd_sh at 1. rewrite run_bind, get_count_matrix_run.
  cbn. by destruct (count_matrix (cache a)).
Qed.




(** [load] reads the token file first: when the matrix file is missing
    it raises [FileNotFoundError] with the vocabulary already replaced by
    the file's, and when the token file is missing it raises before it
    changed anything. *)
Theorem load_without_its_files (w : world) :
  retriever_file (sh w) = None →
  load w =
    (Raise FileNotFoundError,
     match token_file (sh w) with
     | Some v => World (sh w) (set_idx (set_all_tokens v) (me w))
     | None => w
     end).
Proof.
  destruct w as [s a]. cbn. intros Hm. unfold load. exec.
  destruct (token_file s); cbn; by rewrite ?Hm.
Qed.

(** ** How much a token weighs *)

Lemma ln_nonpos_iff (x : R) : (0 < x)%R → (ln x <= 0 ↔ x <= 1)%R.
Proof.
  intros Hx. rewrite <- ln_1. split; intros H.
  - destruct (Rle_or_lt x 1) as [|Hlt]; [done|].
    apply ln_increasing in Hlt; lra.
  - destruct H as [H| ->]; [|lra]. apply ln_increasing in H; lra.
Qed.

Lemma ln_monotone (x y : R) : (0 < x)%R → (x <= y)%R → (ln x <= ln y)%R.
Proof.
  intros Hx [H| ->]; [|lra]. left. by apply ln_increasing.
Qed.

Lemma clamp_zero_iff (x : R) : clamp x = 0%R ↔ (x <= 0)%R.
Proof. unfold clamp. destruct (Rlt_dec x 0); lra. Qed.

Lemma clamp_monotone (x y : R) : (x <= y)%R → (clamp x <= clamp y)%R.
Proof. unfold clamp. destruct (Rlt_dec x 0), (Rlt_dec y 0); lra. Qed.

Lemma idf_ratio_le (D N1 N2 : nat) :
  (N1 <= N2)%nat → (N2 <= D)%nat →
  ((INR D - INR N2 + 0.5) / (INR N2 + 0.5)
   <= (INR D - INR N1 + 0.5) / (INR N1 + 0.5))%R.
Proof.
  intros H1 H2. apply le_INR in H1, H2.
  pose proof (pos_INR N1). pose proof (pos_INR N2).
  apply Rmult_le_reg_r with (r := ((INR N2 + 0.5) * (INR N1 + 0.5))%R).
  { apply Rmult_lt_0_compat; lra. }
  replace ((INR D - INR N2 + 0.5) / (INR N2 + 0.5) * ((INR N2 + 0.5) * (INR N1 + 0.5)))%R
    with ((INR D - INR N2 + 0.5) * (INR N1 + 0.5))%R by (field; lra).
  replace ((INR D - INR N1 + 0.5) / (INR N1 + 0.5) * ((INR N2 + 0.5) * (INR N1 + 0.5)))%R
    with ((INR D - INR N1 + 0.5) * (INR N2 + 0.5))%R by (field; lra).
  nra.
Qed.

Lemma idf_zero_iff (D Nt : nat) :
  (Nt <= D)%nat → idf D Nt = 0%R ↔ (D <= 2 * Nt)%nat.
Proof.
  intros H. unfold idf, raw_idf.
  rewrite clamp_zero_iff, ln_nonpos_iff by (by apply idf_argument_pos).
  pose proof (pos_INR Nt). pose proof (le_INR _ _ H) as HR.
  split.
  - intros Hq. apply INR_le. rewrite mult_INR. cbn [INR].
    apply Rmult_le_compat_r with (r := (INR Nt + 0.5)%R) in Hq; [|lra].
    replace ((INR D - INR Nt + 0.5) / (INR Nt + 0.5) * (INR Nt + 0.5))%R
      with (INR D - INR Nt + 0.5)%R in Hq by (field; lra).
    lra.
  - intros Hq. apply le_INR in Hq. rewrite mult_INR in Hq. cbn [INR] in Hq.
    apply Rmult_le_reg_r with (r := (INR Nt + 0.5)%R); [lra|].
    replace ((INR D - INR Nt + 0.5) / (INR Nt + 0.5) * (INR Nt + 0.5))%R
      with (INR D - INR Nt + 0.5)%R by (field; lra).
    lra.
Qed.

Lemma log1p_nonneg (c : nat) : (0 <= log1p c)%R.
Proof.
  unfold log1p. rewrite <- ln_1. pose proof (pos_INR c).
  apply ln_monotone; lra.
Qed.

Lemma log1p_zero_iff (c : nat) : log1p c = 0%R ↔ c = 0.
Proof.
  unfold log1p. split.
  - intros H. destruct c as [|c]; [done|]. exfalso.
    pose proof (pos_INR c). rewrite S_INR in H.
    assert (Hlt : (ln 1 < ln (1 + (INR c + 1)))%R) by (apply ln_increasing; lra).
    rewrite ln_1 in Hlt. lra.
  - intros ->. cbn. by rewrite Rplus_0_r, ln_1.
Qed.

(** Among the tokens of [D] documents, one that occurs in more documents
    never has the larger idf. *)
Theorem rarer_tokens_weigh_more (D N1 N2 : nat) :
  (N1 <= N2)%nat → (N2 <= D)%nat → (idf D N2 <= idf D N1)%R.
Proof.
  intros H1 H2. unfold idf, raw_idf. apply clamp_monotone, ln_monotone.
  - by apply idf_argument_pos.
  - by apply idf_ratio_le.
Qed.

(** In the tf-idf matrix derived from a count matrix of [D] columns no
    cell is negative, and the cell of token [t] and document [d] is zero
    exactly when the token does not occur in the document or occurs in at
    least half of the documents, [2 * N_t >= D]. *)
Theorem common_tokens_weigh_nothing (w : world) (m : sparse nat) :
  tfidfs (cache (me w)) = None →
  fst (shape m) ≠ 1 →
  ∃ T w',
    _get_tfidf_from_count_matrix m w = (Ret T, w') ∧
    ∀ t d, t < fst (shape m) →
      (0 <= rcell T t d)%R ∧
      (rcell T t d = 0%R ↔
         cell m t d = 0 ∨ (snd (shape m) <= 2 * doc_count m t)%nat).
Proof.
  intros Ht HV. rewrite get_tfidf_uncached, decide_False by done.
  eexists _, _. split; [reflexivity|]. intros t d Hlt.
  rewrite tfidf_of_cell by done.
  pose proof (clamp_nonneg (raw_idf (snd (shape m)) (doc_count m t))) as Hi.
  fold (idf (snd (shape m)) (doc_count m t)) in Hi.
  pose proof (log1p_nonneg (cell m t d)) as Hl.
  rewrite <- (idf_zero_iff _ _ (doc_count_le m t)), <- log1p_zero_iff.
  split; [by apply Rmult_le_pos|]. split.
  - intros H. apply Rmult_integral in H. tauto.
  - intros [->| ->]; lra.
Qed.

(** [compute_tfidf] derives the tf-idf matrix once: with a count matrix
    cached it returns the matrix derived from it and caches it, and a
    second call returns the same matrix and changes nothing. *)
Theorem compute_tfidf_caches_its_result (w : world) (m : sparse nat) :
  count_matrix (cache (me w)) = Some m →
  tfidfs (cache (me w)) = None →
  fst (shape m) ≠ 1 →
  let w' := World (sh w) (set_cache (set_tfidfs (Some (tfidf_of m))) (me w)) in
  compute_tfidf w = (Ret (tfidf_of m), w') ∧
  compute_tfidf w' = (Ret (tfidf_of m), w').
Proof.
  intros Hm Ht HV w'. unfold compute_tfidf. split.
  - rewrite run_bind, get_count_matrix_run, Hm.
    by rewrite get_tfidf_uncached, decide_False.
  - rewrite run_bind, get_count_matrix_run. subst w'.
    destruct w as [s [o i wl c [] l]]. cbn in *. subst.
    unfold _get_tfidf_from_count_matrix. by exec.
Qed.

(** ** Making agents *)

(** [share] on the primary agent numbers the children in the order of the
    calls and makes a new, empty queue for each: the returned child index
    is the position of the returned queue in [comm_queues], which is where
    [_process_child_data] looks a child's queue up, and the next call
    returns the next index and another queue.  The document counter, the
    lock and the queue of announcements are the primary agent's own.  On
    an agent that was itself made from a shared handle there is no
    [comm_queues] and [share] raises [AttributeError]. *)
Theorem share_numbers_the_children (w : world) :
  match comm_queues (link (me w)) with
  | None => share w = (Raise (AttributeError "comm_queues"), w)
  | Some qs =>
      let h := length (queues (sh w)) in
      ∃ w1 w2,
        share w = (Ret (length qs, h), w1) ∧
        share w1 = (Ret (length qs + 1, h + 1), w2) ∧
        comm_queues (link (me w1)) = Some (qs ++ [h]) ∧
        (qs ++ [h]) !! length qs = Some h ∧
        queues (sh w1) = queues (sh w) ++ [[]] ∧
        queues (sh w1) !! h = Some [] ∧
        num_docs (sh w1) = num_docs (sh w) ∧
        db_lock (sh w1) = db_lock (sh w) ∧
        shared_queue (sh w1) = shared_queue (sh w) ∧
        idx (me w1) = idx (me w) ∧
        insert_wait_list (me w1) = insert_wait_list (me w)
  end.
Proof.
  destruct w as [[n k sq q d tf rf] [o i wl c ca [cq ci [qs|] cm]]]; cbn; [|done].
  unfold share. exec. eexists _, _. split; [reflexivity|]. exec.
  rewrite !length_app. cbn. split_and!; try done.
  - by rewrite lookup_app_r, Nat.sub_diag.
  - by rewrite lookup_app_r, Nat.sub_diag.
Qed.

(** [__init__] cannot open a saved index: when the index file exists it
    calls [load] before [self.num_docs] is assigned, so it raises
    [AttributeError] once both files are read, or [FileNotFoundError] when
    the token file is missing, for the primary agent and for a child
    alike. *)
Theorem init_never_opens_a_saved_index (shared_arg : option (nat * nat))
    (s : shared) (m : sparse nat) :
  retriever_file s = Some m →
  ∃ s',
    __init__ shared_arg s =
      (Raise (match token_file s with
              | Some _ => AttributeError "num_docs"
              | None => FileNotFoundError
              end), s') ∧
    num_docs s' = num_docs s.
Proof.
  intros Hm. unfold __init__, init_body. exec. rewrite Hm.
  destruct (bool_decide _); cbn; rewrite ?Hm; destruct (token_file s); cbn;
    by eexists.
Qed.


(** ** The frequency records *)

Lemma stays_for_each_in {A : Type} (P : world → Prop) (l : list A) (body : A → M unit) :
  (∀ x, x ∈ l → stays P (body x)) → stays P (for_each l body).
Proof.
  induction l as [|x l IH]; intros Hb; cbn [for_each]; [apply stays_ret|].
  apply stays_bind; [apply Hb, list_elem_of_here|].
  intros _. apply IH. intros y Hy. by apply Hb, list_elem_of_further.
Qed.

Ltac wf_side := intros [? [? [? ? ? ?] ? ? ? ?]] ?; assumption.

Ltac wf_auto := repeat stays_step wf_side.

Lemma wf_token2id (token : pyobj) : stays (λ w, well_formed (me w)) (_token2id token).
Proof. unfold _token2id. wf_auto. Qed.

Lemma wf_new_freq (token : pyobj) (fact_id freq : nat) :
  (∀ s, token = PyStr s → 0 < freq) →
  stays (λ w, well_formed (me w)) (_new_freq token fact_id freq).
Proof.
  intros Hpos [s [o [v ft ff fq] wl c ca l]] (H1 & H2 & H3).
  destruct token as [tok|n]; [|done]. specialize (Hpos tok eq_refl).
  unfold _new_freq, _token2id. exec.
  destruct (v !! tok); cbn; unfold well_formed; cbn; rewrite !length_app, H1, H2;
    (split_and!; [done..|]); apply Forall_app; split; try done; by repeat constructor.
Qed.

Lemma wf_flush (blocking : bool) :
  stays (λ w, well_formed (me w)) (_flush_db_wait_list blocking).
Proof. unfold _flush_db_wait_list, acquire, executemany, release. wf_auto. Qed.

Lemma wf_get_count_matrix : stays (λ w, well_formed (me w)) _get_count_matrix.
Proof. unfold _get_count_matrix. wf_auto. Qed.

Lemma wf_get_tfidf (m : sparse nat) :
  stays (λ w, well_formed (me w)) (_get_tfidf_from_count_matrix m).
Proof. unfold _get_tfidf_from_count_matrix. wf_auto. Qed.

Lemma wf_compute_tfidf : stays (λ w, well_formed (me w)) compute_tfidf.
Proof.
  unfold compute_tfidf. apply stays_bind; [apply wf_get_count_matrix|].
  intros m. apply wf_get_tfidf.
Qed.

Lemma wf_insert_fact (fact : string) :
  stays (λ w, well_formed (me w)) (_insert_fact_without_id fact).
Proof.
  unfold _insert_fact_without_id, _new_fact_id. pose proof wf_flush. wf_auto.
Qed.

Lemma wf_act : stays (λ w, well_formed (me w)) (act tokenize).
Proof.
  unfold act, del_attr, print_info. pose proof wf_insert_fact.
  apply stays_bind; [wf_auto|]. intros a.
  apply stays_bind; [wf_auto|]. intros _.
  apply stays_bind; [|intros _; apply stays_ret].
  destruct (observation a !! "text") as [fact|]; [|wf_auto].
  apply stays_bind; [wf_auto|]. intros _.
  apply stays_bind; [wf_auto|]. intros a'.
  apply stays_bind; [wf_auto|]. intros _.
  apply stays_bind; [wf_auto|]. intros fact_id.
  apply stays_for_each_in. intros [tok c] Hin.
  apply wf_new_freq. intros _ _. cbn.
  by apply (unique_tokens_spec (tokenize fact)) in Hin as [? _].
Qed.

Lemma wf_save : stays (λ w, well_formed (me w)) save.
Proof. unfold save. pose proof wf_get_count_matrix. wf_auto. Qed.

Lemma wf_load : stays (λ w, well_formed (me w)) load.
Proof. unfold load. pose proof wf_get_tfidf. wf_auto. Qed.

Lemma wf_share : stays (λ w, well_formed (me w)) share.
Proof. unfold share. wf_auto. Qed.

Lemma wf_fetch_documents (doc_ids : list nat) :
  stays (λ w, well_formed (me w)) (fetch_documents doc_ids).
Proof.
  induction doc_ids as [|d ds IH]; cbn [fetch_documents]; [apply stays_ret|].
  unfold execute_fetchall. wf_auto.
Qed.

Lemma wf_retrieve (query : string) (max_results : nat) :
  stays (λ w, well_formed (me w))
    (retrieve tokenize argsort argpartition query max_results).
Proof.
  unfold retrieve.
  pose proof wf_flush. pose proof wf_compute_tfidf.
  pose proof wf_token2id. pose proof wf_fetch_documents.
  wf_auto.
Qed.

Lemma wf_process_message (queue_ind : nat) (data : message) :
  stays (λ w, well_formed (me w)) (process_message queue_ind data).
Proof.
  unfold process_message, set_child_token, get_child_token.
  pose proof wf_token2id.
  assert (∀ n fact_id freq,
            stays (λ w, well_formed (me w)) (_new_freq (PyInt n) fact_id freq))
    by (intros; by apply wf_new_freq).
  destruct data as [d|l|s|]; [| |destruct (String.eqb s END_OF_DATA)|]; wf_auto.
Qed.

Lemma wf_drain (queue_ind h : nat) (pending : list message) :
  stays (λ w, well_formed (me w)) (drain queue_ind h pending).
Proof.
  induction pending as [|data rest IH]; cbn [drain]; [apply stays_block|].
  pose proof wf_process_message. wf_auto.
Qed.

Lemma wf_process_child_data : stays (λ w, well_formed (me w)) _process_child_data.
Proof. unfold _process_child_data. pose proof wf_drain. wf_auto. Qed.

Lemma wf_shutdown : stays (λ w, well_formed (me w)) shutdown.
Proof.
  unfold shutdown, queue_put, print_info, join.
  pose proof wf_flush. pose proof wf_save. wf_auto.
Qed.

Lemma wf_init_body (shared_arg : option (nat * nat)) :
  stays (λ w, well_formed (me w)) (init_body shared_arg).
Proof.
  unfold init_body. pose proof wf_process_child_data.
  wf_auto; destruct (bool_decide _); wf_auto.
Qed.

(** In every state an agent can reach, the three frequency lists have one
    length, so that they always describe whole records, and every
    recorded count is positive. *)
Theorem frequency_lists_stay_aligned (w : world) :
  reachable tokenize argsort argpartition w →
  length (freq_token (idx (me w))) = length (freq_freq (idx (me w))) ∧
  length (freq_fact_id (idx (me w))) = length (freq_freq (idx (me w))) ∧
  Forall (λ c, 0 < c) (freq_freq (idx (me w))).
Proof.
  change (reachable tokenize argsort argpartition w → well_formed (me w)).
  induction 1 as [shared_arg s s' a Hinit|c w _ IH|s' w _ IH]; [| |exact IH].
  - unfold __init__ in Hinit.
    pose proof (wf_init_body shared_arg
                  (World s (blank (Links None None None None)))) as Hk.
    destruct (init_body _ _) as [[u|e|] w']; [|done..].
    injection Hinit as <- <-. apply Hk. by repeat split.
  - destruct c; cbn [after].
    + destruct w as [s [? ? ? ? ? ?]]. exact IH.
    + by apply wf_act.
    + by apply wf_retrieve.
    + by apply wf_compute_tfidf.
    + by apply wf_save.
    + by apply wf_load.
    + by apply wf_share.
    + by apply wf_shutdown.
Qed.

(** ** The vocabulary a child sends *)

(** One item of a vocabulary message: the token has an id in the primary
    agent's vocabulary afterwards, and the child's id is mapped to it. *)
Lemma vocabulary_item_translates (w : world) (q : nat) (tok : string) (tid : nat)
    (maps : list (gmap nat nat)) (m : gmap nat nat) :
  child_token_map (link (me w)) = Some maps →
  maps !! q = Some m →
  ∃ i w',
    (true_token_id ← _token2id (PyStr tok); set_child_token q tid true_token_id) w
      = (Ret tt, w') ∧
    child_token_map (link (me w')) = Some (<[q := <[tid := i]> m]> maps) ∧
    all_tokens (idx (me w')) !! tok = Some i ∧
    (∀ t j, all_tokens (idx (me w)) !! t = Some j →
            all_tokens (idx (me w')) !! t = Some j) ∧
    (dense (all_tokens (idx (me w))) → dense (all_tokens (idx (me w')))) ∧
    sh w' = sh w ∧ freqs w' = freqs w.
Proof.
  destruct w as [s [o [v ft ff fq] wl c ca [cq ci cqs cm]]]. cbn.
  intros -> Hm. unfold _token2id, set_child_token. exec.
  destruct (v !! tok) as [i|] eqn:E; exec; rewrite Hm; exec.
  - exists i. eexists. split; [reflexivity|]. cbn. by split_and!.
  - eexists _, _. split; [reflexivity|]. cbn. split_and!; try done.
    + by rewrite lookup_insert_eq.
    + intros t j Ht. rewrite lookup_insert_ne by congruence. done.
    + by apply dense_insert_new.
Qed.

Lemma vocabulary_loop_translates (q : nat) (items : list (string * nat)) :
  NoDup (map snd items) →
  ∀ (w : world) (maps : list (gmap nat nat)) (m : gmap nat nat),
    child_token_map (link (me w)) = Some maps →
    maps !! q = Some m →
    ∃ w' m',
      for_each items (λ item,
        true_token_id ← _token2id (PyStr (fst item));
        set_child_token q (snd item) true_token_id) w = (Ret tt, w') ∧
      child_token_map (link (me w')) = Some (<[q := m']> maps) ∧
      (∀ item, item ∈ items →
         ∃ i, m' !! snd item = Some i ∧
              all_tokens (idx (me w')) !! fst item = Some i) ∧
      (∀ tid, tid ∉ map snd items → m' !! tid = m !! tid) ∧
      (∀ t j, all_tokens (idx (me w)) !! t = Some j →
              all_tokens (idx (me w')) !! t = Some j) ∧
      (dense (all_tokens (idx (me w))) → dense (all_tokens (idx (me w')))) ∧
      sh w' = sh w ∧ freqs w' = freqs w.
Proof.
  induction items as [|[tok tid] items IH]; intros Hnd w maps m Hmaps Hm.
  - exists w, m. split_and!; try done.
    + by rewrite list_insert_id.
    + intros item Hin. by apply elem_of_nil in Hin.
  - cbn [map snd] in Hnd. apply NoDup_cons in Hnd as [Hnot Hnd].
    destruct (vocabulary_item_translates w q tok tid maps m Hmaps Hm)
      as (i & w1 & Hstep & Hmaps1 & Hi & Hmono1 & Hdense1 & Hsh1 & Hfr1).
    assert (Hq : (<[q := <[tid := i]> m]> maps) !! q = Some (<[tid := i]> m)).
    { apply list_lookup_insert_eq. by eapply lookup_lt_Some. }
    destruct (IH Hnd w1 _ _ Hmaps1 Hq)
      as (w' & m' & Hloop & Hmaps' & Hitems & Hrest & Hmono & Hdense & Hsh & Hfr).
    exists w', m'. split_and!.
    + cbn [for_each]. rewrite run_bind. cbn beta. cbn [fst snd].
      rewrite Hstep. exact Hloop.
    + by rewrite Hmaps', list_insert_insert_eq.
    + intros item [->|Hin]%elem_of_cons; [|by apply Hitems].
      exists i. cbn [fst snd]. split; [|by apply Hmono].
      rewrite (Hrest tid Hnot). by rewrite lookup_insert_eq.
    + intros t Ht. cbn [map snd] in Ht. apply not_elem_of_cons in Ht as [Hne Ht].
      rewrite (Hrest t Ht). by rewrite lookup_insert_ne.
    + auto.
    + auto.
    + congruence.
    + congruence.
Qed.

(** A vocabulary message gives the primary agent a translation of the
    child's token ids: when the child's vocabulary gives each id to one
    token, as a vocabulary filled by [_token2id] does, then after the
    message every id of the child is mapped to the id the primary agent
    has for the same token.  The primary agent's own tokens keep their
    ids, a dense vocabulary stays dense, the maps of the other children
    and the frequency lists are not touched, and the loop goes on. *)
Theorem vocabulary_message_translates_ids (q : nat) (d : gmap string nat) (w : world)
    (maps : list (gmap nat nat)) (m : gmap nat nat) :
  child_token_map (link (me w)) = Some maps →
  maps !! q = Some m →
  (∀ t1 t2 i, d !! t1 = Some i → d !! t2 = Some i → t1 = t2) →
  ∃ w' m',
    process_message q (MsgDict d) w = (Ret false, w') ∧
    child_token_map (link (me w')) = Some (<[q := m']> maps) ∧
    (∀ tok tid, d !! tok = Some tid →
       ∃ i, m' !! tid = Some i ∧ all_tokens (idx (me w')) !! tok = Some i) ∧
    (∀ t j, all_tokens (idx (me w)) !! t = Some j →
            all_tokens (idx (me w')) !! t = Some j) ∧
    (dense (all_tokens (idx (me w))) → dense (all_tokens (idx (me w')))) ∧
    sh w' = sh w ∧ freqs w' = freqs w.
Proof.
  intros Hmaps Hm Hinj.
  assert (Hnd : NoDup (map snd (map_to_list d))).
  { apply NoDup_fmap_2_strong; [|apply NoDup_map_to_list].
    intros [t1 i1] [t2 i2] H1%elem_of_map_to_list H2%elem_of_map_to_list Heq.
    cbn in Heq. subst i2. f_equal. by eapply Hinj. }
  destruct (vocabulary_loop_translates q (map_to_list d) Hnd w maps m Hmaps Hm)
    as (w' & m' & Hloop & Hmaps' & Hitems & _ & Hmono & Hdense & Hsh & Hfr).
  exists w', m'. split_and!; try done.
  - cbn [process_message]. rewrite run_bind, Hloop. reflexivity.
  - intros tok tid Hd. apply (Hitems (tok, tid)). by apply elem_of_map_to_list.
Qed.

(** ** What stops the collecting loop *)

(** The collecting loop takes the children in the order in which they
    announce themselves, and waits when there are more children than
    announcements: with a child known and nothing on the queue of
    announcements it never returns, and it has done nothing but make the
    empty translation maps. *)
Theorem merge_waits_for_an_announcement (w : world) (q : nat) (qs : list nat) :
  comm_queues (link (me w)) = Some (q :: qs) →
  shared_queue (sh w) = [] →
  _process_child_data w =
    (Block,
     World (sh w)
       (set_link (set_child_token_map (Some (map (λ _, ∅) (q :: qs)))) (me w))).
Proof.
  destruct w as [[n k sq qq d tf rf] [o i wl c ca [cq ci cqs cm]]]. cbn.
  intros -> ->. unfold _process_child_data. by exec.
Qed.

(** What the loop refuses on a child's queue: a message that is neither
    the end mark, a dict nor a list, and a string other than the end
    mark, raise [RuntimeError]; a list of fewer than three members
    cannot be unpacked and raises [ValueError]; and a frequency
    record whose token id the child's vocabulary message did not announce
    raises [KeyError].  None of them changes the state. *)
Theorem merge_rejects_malformed_messages (q : nat) (w : world)
    (maps : list (gmap nat nat)) (m : gmap nat nat) :
  child_token_map (link (me w)) = Some maps →
  maps !! q = Some m →
  let wrong := RuntimeError
                 "TfidfRetrieverAgent: wrong data format send from child to master." in
  process_message q MsgOther w = (Raise wrong, w) ∧
  (∀ s, s ≠ END_OF_DATA → process_message q (MsgStr s) w = (Raise wrong, w)) ∧
  process_message q (MsgStr END_OF_DATA) w = (Ret true, w) ∧
  (∀ l, length l < 3 →
     process_message q (MsgList l) w
     = (Raise (ValueError "not enough values to unpack"), w)) ∧
  (∀ tid tids fids frs, m !! tid = None →
     process_message q (MsgList [tid :: tids; fids; frs]) w = (Raise KeyError, w)) ∧
  (∀ fids frs, process_message q (MsgList [[]; fids; frs]) w = (Ret false, w)).
Proof.
  destruct w as [s [o i wl c ca [cq ci cqs cm]]]. cbn. intros -> Hm.
  split_and!.
  - reflexivity.
  - intros x Hx. apply String.eqb_neq in Hx. by rewrite Hx.
  - reflexivity.
  - intros [|a [|b [|c' l]]] Hl; cbn in Hl; try done. lia.
  - intros tid tids fids frs Ht. unfold get_child_token. exec.
    rewrite Hm. cbn. by rewrite Ht.
  - reflexivity.
Qed.

(** ** Children that took nothing in *)

Lemma drain_idle (q h : nat) (more : list message) (w : world) :
  h < length (queues (sh w)) →
  drain q h (idle_messages ++ more) w
  = (Ret tt, World (set_queues (<[h := more]> (queues (sh w))) (sh w)) (me w)).
Proof.
  intros Hh. destruct w as [[n k sq qq d tf rf] a]. cbn in Hh.
  unfold idle_messages. cbn [app drain process_message].
  rewrite map_to_list_empty. exec.
  by rewrite !list_insert_insert_eq.
Qed.

Lemma idle_loop (qs : list nat) (l : list nat) :
  ∀ (sq hs rest : list nat) (w : world),
    length sq = length l →
    Forall2 (λ i h, qs !! i = Some h) sq hs →
    NoDup hs →
    shared_queue (sh w) = sq ++ rest →
    (∀ h, h ∈ hs → ∃ more, queues (sh w) !! h = Some (idle_messages ++ more)) →
    ∃ w',
      for_each l (λ _ : nat,
        s ← get_sh;
        match shared_queue s with
        | [] => block
        | queue_ind :: rest =>
            upd_sh (set_shared_queue rest) ;;
            h ← or_raise IndexError (qs !! queue_ind);
            drain queue_ind h (default [] (queues s !! h))
        end) w = (Ret tt, w') ∧
      me w' = me w ∧
      sh w' = set_queues (queues (sh w')) (set_shared_queue rest (sh w)) ∧
      (∀ h, h ∈ hs → queues (sh w') !! h = drop 3 <$> queues (sh w) !! h) ∧
      (∀ h, h ∉ hs → queues (sh w') !! h = queues (sh w) !! h).
Proof.
  induction l as [|x l IH]; intros sq hs rest w Hlen Hhs Hnd Hsq Hidle.
  - destruct sq; [|done]. apply Forall2_nil_inv_l in Hhs as ->.
    exists w. cbn in Hsq. split_and!; try done.
    + destruct w as [[] a]. cbn in *. by subst.
    + intros h Hh. by apply elem_of_nil in Hh.
  - destruct sq as [|i sq]; [done|]. injection Hlen as Hlen.
    apply Forall2_cons_inv_l in Hhs as (h & hs' & Hi & Hhs & ->).
    apply NoDup_cons in Hnd as [Hnot Hnd].
    destruct (Hidle h) as [more Hq]; [apply list_elem_of_here|].
    set (w1 := World (set_queues (<[h := more]> (queues (sh w)))
                        (set_shared_queue (sq ++ rest) (sh w))) (me w)).
    assert (Hstep :
      (s ← get_sh;
       match shared_queue s with
       | [] => block
       | queue_ind :: rest =>
           upd_sh (set_shared_queue rest) ;;
           h ← or_raise IndexError (qs !! queue_ind);
           drain queue_ind h (default [] (queues s !! h))
       end) w = (Ret tt, w1)).
    { rewrite run_bind. unfold get_sh at 1. rewrite Hsq. cbn [app].
      rewrite run_bind. unfold upd_sh at 1. rewrite run_bind, Hi.
      unfold or_raise at 1, mret at 1, M_ret at 1. rewrite Hq.
      cbn [default from_option Datatypes.id].
      rewrite drain_idle; [reflexivity|].
      destruct w as [[] a]. cbn in *. by eapply lookup_lt_Some. }
    destruct (IH sq hs' rest w1 Hlen Hhs Hnd) as (w' & Hloop & Hme & Hsh & Hin & Hout).
    { by destruct w as [[] a]. }
    { intros h' Hh'. destruct (Hidle h') as [more' Hq']; [by apply list_elem_of_further|].
      exists more'. subst w1. destruct w as [[] a]. cbn in *.
      rewrite list_lookup_insert_ne; [done|]. intros <-. contradiction. }
    assert (Hw1 : ∀ h', h' ≠ h → queues (sh w1) !! h' = queues (sh w) !! h').
    { intros h' Hne. subst w1. destruct w as [[] a]. cbn.
      by rewrite list_lookup_insert_ne. }
    exists w'. split_and!.
    + cbn [for_each]. rewrite run_bind, Hstep. exact Hloop.
    + by rewrite Hme.
    + rewrite Hsh at 1. subst w1. by destruct w as [[] a].
    + intros h' [->|Hh']%elem_of_cons.
      * rewrite (Hout h Hnot), Hq. subst w1. destruct w as [[] a]. cbn in *.
        rewrite list_lookup_insert_eq by (by eapply lookup_lt_Some). done.
      * rewrite (Hin h' Hh'). f_equal. apply Hw1. intros ->. contradiction.
    + intros h' Hh'. apply not_elem_of_cons in Hh' as [Hne Hh'].
      rewrite (Hout h' Hh'). by apply Hw1.
Qed.

(** The collecting loop ends well when no child has anything to report:
    if every child has announced itself, once, and each queue starts with
    what a child sends that took in no fact, [_process_child_data] returns,
    having taken the announcements and those three messages off each
    queue.  The index of the primary agent is what it was, and each child
    has an empty translation map. *)
Theorem merge_of_idle_children (w : world) (qs sq hs rest : list nat) :
  comm_queues (link (me w)) = Some qs →
  shared_queue (sh w) = sq ++ rest →
  length sq = length qs →
  Forall2 (λ i h, qs !! i = Some h) sq hs →
  NoDup hs →
  (∀ h, h ∈ hs → ∃ more, queues (sh w) !! h = Some (idle_messages ++ more)) →
  ∃ w',
    _process_child_data w = (Ret tt, w') ∧
    me w' = set_link (set_child_token_map (Some (map (λ _, ∅) qs))) (me w) ∧
    sh w' = set_queues (queues (sh w')) (set_shared_queue rest (sh w)) ∧
    (∀ h, h ∈ hs → queues (sh w') !! h = drop 3 <$> queues (sh w) !! h) ∧
    (∀ h, h ∉ hs → queues (sh w') !! h = queues (sh w) !! h).
Proof.
  intros Hqs Hsq Hlen Hhs Hnd Hidle.
  unfold _process_child_data. rewrite run_bind. unfold get_me at 1.
  rewrite run_bind, Hqs. unfold or_raise at 1, mret at 1, M_ret at 1.
  rewrite run_bind. unfold upd_me at 1.
  set (w0 := World (sh w) _).
  destruct (idle_loop qs qs sq hs rest w0 Hlen Hhs Hnd Hsq Hidle)
    as (w' & Hloop & Hme & Hsh & Hin & Hout).
  exists w'. by split_and!.
Qed.

(** ** What [retrieve] returns *)

Lemma reachable_unset (w : world) :
  reachable tokenize argsort argpartition w → unset (me w).
Proof.
  induction 1 as [shared_arg s s' a Hinit|c w _ IH|s' w _ IH]; [| |exact IH].
  - unfold __init__ in Hinit.
    pose proof (keeps_init_body shared_arg
                  (World s (blank (Links None None None None)))) as Hk.
    destruct (init_body _ _) as [[u|e|] w']; [|done..].
    injection Hinit as <- <-. by apply Hk.
  - destruct c; cbn [after].
    + destruct w as [s [? ? ? ? ? ?]]. exact IH.
    + by apply keeps_act.
    + by apply keeps_retrieve.
    + by apply keeps_compute_tfidf.
    + by apply keeps_save.
    + by apply keeps_load.
    + by apply keeps_share.
    + by apply keeps_shutdown.
Qed.

(** With [doc_freqs] unset, [retrieve] returns only when none of the
    query's tokens is in the vocabulary, and then it returns nothing. *)
Lemma retrieve_outcome (w : world) (query : string) (max_results : nat) :
  doc_freqs (cache (me w)) = None →
  ∃ o w',
    retrieve tokenize argsort argpartition query max_results w = (o, w') ∧
    (∀ r, o = Ret r →
       r = [] ∧
       filter (λ token, is_Some (all_tokens (idx (me w)) !! token)) (tokenize query) = []).
Proof.
  intros Hdf. unfold retrieve. rewrite run_bind.
  destruct (flush_cases true w) as [[Hl ->]|[(Hl & Hk & ->)|(Hl & Hk & e & ->)]];
    [|by eexists _, _; split..].
  rewrite run_bind. unfold get_me at 1.
  set (tokens := filter _ _).
  assert (Hall : Forall (λ t, is_Some (all_tokens (idx (me w)) !! t)) tokens).
  { apply Forall_forall. intros t Ht. apply list_elem_of_filter in Ht. tauto. }
  destruct tokens as [|t0 tokens'].
  { eexists _, _. split; [reflexivity|]. intros r [= <-]. done. }
  rewrite run_bind. unfold compute_tfidf. rewrite run_bind, get_count_matrix_run.
  destruct (count_matrix (cache (me w))) as [m|] eqn:Hcm;
    [|by eexists _, _; split].
  assert (Htail : ∀ w1 : world,
            all_tokens (idx (me w1)) = all_tokens (idx (me w)) →
            doc_freqs (cache (me w1)) = None →
            (wids ← map_M (λ tok, _token2id (PyStr tok)) (t0 :: tokens');
             a ← get_me;
             df ← or_raise (AttributeError "doc_freqs") (doc_freqs (cache a));
             Ns ← or_raise IndexError
                    (take_idx df (map fst (unique_ids wids)));
             s ← get_sh;
             n ← undefined_method "len";
             t ← or_raise (AttributeError "tfidfs") (tfidfs (cache a));
             res ← lift (row_times
                           (zip (map fst (unique_ids wids))
                              (zip_with Rmult (map log1p (map snd (unique_ids wids)))
                                 (map (idf (num_docs s)) Ns))) n t);
             sel ← or_raise IndexError
                     (select_top argsort argpartition (fst res) (snd res) max_results);
             fetch_documents (snd sel)) w1
            = (Raise (AttributeError "doc_freqs"), w1)).
  { intros w1 Hv Hd. rewrite run_bind.
    destruct (map_M_known_tokens w1 (t0 :: tokens')) as [wids ->].
    { by rewrite Hv. }
    rewrite run_bind. unfold get_me at 1. rewrite run_bind, Hd. reflexivity. }
  destruct (get_tfidf_run m w) as [(t & Ht & ->)|(Ht & o & ->)].
  - rewrite Htail by done. by eexists _, _; split.
  - destruct o as [t|e|]; [rewrite Htail by done|..]; by eexists _, _; split.
Qed.

(** C6.  [retrieve] never gets to the selection of the best results.  In
    every state an agent can reach, for every query and every
    [max_results], [retrieve] returns only when no token of the query is
    in the vocabulary, and what it returns then is the empty sequence; for
    a query with a token of the vocabulary it ends in an exception or
    waits for the lock, before a score is sorted or partitioned.  So no
    call returns the [max_results] best documents, and none returns a
    document at all. *)
Theorem retrieve_never_returns_the_best (w : world) (query : string)
    (max_results : nat) :
  reachable tokenize argsort argpartition w →
  ∃ o w',
    retrieve tokenize argsort argpartition query max_results w = (o, w') ∧
    (∀ r, o = Ret r → r = []) ∧
    (∀ token, token ∈ tokenize query →
       is_Some (all_tokens (idx (me w)) !! token) → ∀ r, o ≠ Ret r).
Proof.
  intros Hr. apply reachable_unset in Hr as [Hdf _].
  destruct (retrieve_outcome w query max_results Hdf) as (o & w' & Hrun & Hret).
  exists o, w'. split_and!; [done| |].
  - intros r Ho. by apply Hret in Ho as [? _].
  - intros token Hin Hknown r Ho. apply Hret in Ho as [_ Hnone].
    assert (Hel : token ∈ filter (λ token, is_Some (all_tokens (idx (me w)) !! token))
                            (tokenize query))
      by (by apply list_elem_of_filter).
    rewrite Hnone in Hel. by apply elem_of_nil in Hel.
Qed.

End Runs.

(** * The properties at concrete states *)

(** On a new primary agent, an observation that only has labels. *)
Lemma act_without_text_at_new_agent :
  act words no_text_world = (Ret {["id" := "TfidfRetriever"]}, no_text_world).
Proof.
  apply (act_without_text_changes_nothing words no_text_world); reflexivity.
Defined.

(** [load] on the saved index of one document gives the loaded state,
    up to the observation made afterwards. *)
Example load_reaches_loaded_state :
  load (World saved_shared primary)
  = (Ret tt, World (sh loaded_world) (set_observation ∅ loaded_agent)).
Proof. reflexivity. Qed.

(** After [load], taking in the fact [b] fails and leaves the index as it
    was, with both matrices gone and no way to rebuild them. *)
Lemma act_after_load_raises :
  let w' := World (sh loaded_world) (set_cache clear_caches loaded_agent) in
  act words loaded_world = (Raise (AttributeError "doc_freqs"), w') ∧
  compute_tfidf w' = (Raise (AttributeError "len"), w').
Proof.
  apply (act_after_build_raises words loaded_world one_fact_matrix
           (tfidf_of one_fact_matrix)); reflexivity.
Defined.

(** [shutdown] on the new primary agent. *)
Lemma primary_shutdown_at_new_agent :
  ∃ o w',
    shutdown (World new_shared primary) = (o, w') ∧
    (∀ u, o ≠ Ret u) ∧
    (insert_wait_list primary = [] →
       o = Raise (AttributeError "start_data_collection") ∧
       w' = World new_shared primary) ∧
    me w' = primary ∧
    db (sh w') = db new_shared ∧
    token_file (sh w') = None ∧
    retriever_file (sh w') = None.
Proof.
  apply (primary_shutdown_never_returns (World new_shared primary)). reflexivity.
Defined.

(** Looking up document 0, which the table holds. *)
Lemma fetch_stored_document_raises :
  fetch_documents [0] stored_world
  = (Raise (OperationalError "no such column"), stored_world).
Proof.
  apply (fetch_documents_raises stored_world
           (Table ["id"; "x"; "y"] [[SqlInt 0; SqlText "a"; SqlNull]]));
    reflexivity.
Defined.

(** The query [a] on the loaded index, whose vocabulary holds [a]. *)
Lemma retrieve_on_loaded_index_raises :
  ∃ o w',
    retrieve words insertion_argsort sort_argpartition "a" 100 loaded_world = (o, w') ∧
    (∀ r, o ≠ Ret r) ∧
    (insert_wait_list loaded_agent = [] → count_matrix (cache loaded_agent) = None →
       o = Raise (AttributeError "len") ∧ w' = loaded_world) ∧
    (insert_wait_list loaded_agent = [] → is_Some (count_matrix (cache loaded_agent)) →
       is_Some (tfidfs (cache loaded_agent)) →
       o = Raise (AttributeError "doc_freqs") ∧ w' = loaded_world).
Proof.
  apply (retrieve_never_weights_the_query words insertion_argsort sort_argpartition
           loaded_world "a" 100 "a").
  - reflexivity.
  - apply list_elem_of_here.
  - exists 0. reflexivity.
Defined.

(** Deriving the tf-idf matrix of the index whose only token is [a]. *)
Lemma tfidf_of_one_token_matrix_raises :
  _get_tfidf_from_count_matrix one_token_matrix (World new_shared primary)
  = (Raise (TypeError "'numpy.float64' object does not support item assignment"),
     World new_shared primary).
Proof.
  apply (tfidf_matrix_formula (World new_shared primary) one_token_matrix);
    reflexivity.
Defined.

(** [load] of that index fails for the same reason, with the vocabulary
    and the count matrix already in place. *)
Example load_of_one_token_index_raises :
  fst (load (World (set_retriever_file (Some one_token_matrix)
                      (set_token_file (Some {["a" := 0]}) new_shared)) primary))
  = Raise (TypeError "'numpy.float64' object does not support item assignment").
Proof. reflexivity. Qed.

(** The collecting loop on what one child sent for one fact. *)
Lemma merge_of_one_child_raises :
  ∃ w', _process_child_data merge_world = (Raise (RuntimeError "surprise"), w') ∧
        freqs w' = ([], [], []).
Proof.
  apply (merge_raises_on_first_record merge_world [0] [] 0 0 {["a" := 0]} "a"
           0 0 1 [] [] [] [MsgStr END_OF_DATA]); reflexivity.
Defined.

(** The selection with the insertion sort standing in for numpy. *)
Lemma select_top_with_insertion_sort :
  select_top insertion_argsort sort_argpartition [0; 1; 2; 3; 4] [5; 3; 4; 1; 2]%R 2
  = Some ([5; 4]%R, [0; 2]).
Proof.
  apply (select_top_returns_best insertion_argsort sort_argpartition
           insertion_argsort_perm insertion_argsort_sorted
           sort_argpartition_perm sort_argpartition_pivot).
Defined.

(** ** One fact, one child: the run from [__init__] to [shutdown] *)

Example init_of_primary :
  __init__ None (Shared 0 false [] [] ∅ None None) = (Ret primary, new_shared).
Proof. vm_compute. reflexivity. Qed.

Example share_then_init_of_child :
  share (World new_shared primary)
    = (Ret (0, 0), World child_shared (set_link (set_comm_queues (Some [0])) primary)) ∧
  __init__ (Some (0, 0)) child_shared = (Ret new_child, child_shared).
Proof. split; vm_compute; reflexivity. Qed.

Example child_takes_in_the_fact :
  act words (World child_shared (set_observation {["text" := "a"]} new_child))
  = (Ret {["id" := "TfidfRetriever"]},
     World (set_num_docs 1 child_shared) child_with_fact).
Proof. vm_compute. reflexivity. Qed.

(** The child's [shutdown] fails in the flush, holding the lock, before it
    has put anything on a queue. *)
Example child_shutdown_fails_in_flush :
  shutdown (World (set_num_docs 1 child_shared) child_with_fact)
  = (Raise (ProgrammingError "Incorrect number of bindings supplied"),
     World (set_db_lock true (set_num_docs 1 child_shared)) child_with_fact).
Proof. vm_compute. reflexivity. Qed.

(** A single agent that takes in the same fact holds the record (0, 0, 1),
    and has no way to turn it into a count matrix. *)
Example single_agent_takes_in_the_fact :
  let w := snd (act words (World new_shared (set_observation {["text" := "a"]} primary))) in
  freqs w = ([0], [0], [1]) ∧
  fst (_get_count_matrix w) = Raise (AttributeError "len").
Proof. vm_compute. split; reflexivity. Qed.

(** ** The other paths at concrete states *)

(** The fact [b a b] on the new primary agent: two records, for [a] once
    and for [b] twice. *)
Lemma act_takes_in_b_a_b :
  let w := World new_shared (set_observation {["text" := "b a b"]} primary) in
  let U := unique_tokens (words "b a b") in
  ∃ ids w',
    act words w = (Ret {["id" := "TfidfRetriever"]}, w') ∧
    sh w' = set_num_docs 1 new_shared ∧
    insert_wait_list (me w') = [(0, "b a b")] ∧
    cnt (me w') = 1 ∧
    Forall2 (λ tc i, all_tokens (idx (me w')) !! fst tc = Some i) U ids ∧
    (∀ t j, (∅ : gmap string nat) !! t = Some j →
            all_tokens (idx (me w')) !! t = Some j) ∧
    freqs w' = (ids, replicate (length U) 0, map snd U) ∧
    cache (me w') = Caches None None None None ∧
    link (me w') = Links None None (Some []) (Some []).
Proof.
  apply (act_takes_in_a_fact words
           (World new_shared (set_observation {["text" := "b a b"]} primary)) "b a b").
  - reflexivity.
  - reflexivity.
  - unfold BUFFER_SIZE. cbn. lia.
  - reflexivity.
Defined.

(** A child that took nothing in sends an empty vocabulary and empty
    lists. *)
Lemma new_child_shutdown_sends :
  shutdown (World child_shared new_child) =
    (Ret tt,
     World (set_queues
              (alter (λ q, q ++ [MsgDict ∅; MsgList [[]; []; []]; MsgStr END_OF_DATA])
                 0 [[]])
              (set_shared_queue [0] child_shared))
           new_child).
Proof.
  apply (child_shutdown_sends_in_order (World child_shared new_child) 0 0);
    reflexivity.
Defined.

(** The query [z] on the loaded index, which only knows [a]. *)
Lemma retrieve_z_on_loaded_index :
  retrieve words insertion_argsort sort_argpartition "z" 100 loaded_world
  = (Ret [], loaded_world).
Proof.
  apply (retrieve_unknown_tokens_yields_nothing words insertion_argsort
           sort_argpartition loaded_world "z" 100).
  - reflexivity.
  - repeat constructor.
Defined.

(** The new primary agent is reachable, and so is the state after [load]. *)
Lemma doc_freqs_unset_after_load :
  doc_freqs (cache (me (after words insertion_argsort sort_argpartition Load
                          (World saved_shared primary)))) = None ∧
  num_tokens (cache (me (after words insertion_argsort sort_argpartition Load
                           (World saved_shared primary)))) = None.
Proof.
  apply (doc_freqs_never_assigned words insertion_argsort sort_argpartition).
  apply reach_call.
  apply (reach_others _ _ _ saved_shared (World new_shared primary)).
  apply (reach_init _ _ _ None (Shared 0 false [] [] ∅ None None)).
  vm_compute. reflexivity.
Defined.

(** ** The further properties at concrete states *)

(** The child that took in the fact [a]: its flush fails and keeps the
    lock. *)
Lemma child_flush_keeps_the_lock :
  let w := World (set_num_docs 1 child_shared) child_with_fact in
  let w' := World (set_db_lock true (set_num_docs 1 child_shared)) child_with_fact in
  _flush_db_wait_list true w
    = (Raise (ProgrammingError "Incorrect number of bindings supplied"), w') ∧
  _flush_db_wait_list true w' = (Block, w') ∧
  _flush_db_wait_list false w' = (Ret tt, w').
Proof.
  apply (failed_flush_keeps_the_lock true
           (World (set_num_docs 1 child_shared) child_with_fact) CREATE_TABLE);
    [discriminate|reflexivity..].
Defined.

(** The same child can neither be queried nor shut down. *)
Lemma child_with_fact_is_stuck :
  let w := World (set_num_docs 1 child_shared) child_with_fact in
  (∃ o w', retrieve words insertion_argsort sort_argpartition "a" 100 w = (o, w') ∧
           (∀ r, o ≠ Ret r) ∧ me w' = child_with_fact) ∧
  (∃ o w', shutdown w = (o, w') ∧
           (∀ u, o ≠ Ret u) ∧ me w' = child_with_fact ∧
           queues (sh w') = [[]] ∧
           shared_queue (sh w') = [] ∧
           token_file (sh w') = None ∧
           retriever_file (sh w') = None).
Proof.
  apply (pending_facts_stop_retrieve_and_shutdown words insertion_argsort
           sort_argpartition (World (set_num_docs 1 child_shared) child_with_fact)
           "a" 100).
  discriminate.
Defined.

(** The thousandth fact of an agent whose wait list holds 999. *)
Lemma act_on_the_thousandth_fact :
  let a := set_insert_wait_list (replicate 999 (0, "a"))
             (set_observation {["text" := "a"]} primary) in
  act words (World new_shared a) =
    (Raise (ProgrammingError "Incorrect number of bindings supplied"),
     World (set_db_lock true (set_num_docs 1 new_shared))
       (set_insert_wait_list (replicate 999 (0, "a") ++ [(0, "a")])
          (set_cnt 1 a))).
Proof.
  apply (act_fails_when_the_buffer_fills words
           (World new_shared
              (set_insert_wait_list (replicate 999 (0, "a"))
                 (set_observation {["text" := "a"]} primary)))
           "a" CREATE_TABLE).
  - reflexivity.
  - reflexivity.
  - cbn [me insert_wait_list set_insert_wait_list].
    rewrite length_replicate. unfold BUFFER_SIZE. lia.
  - reflexivity.
  - reflexivity.
  - reflexivity.
  - reflexivity.
Defined.



(** [load] on the new primary agent, before anything was saved. *)
Lemma load_before_any_save :
  load (World new_shared primary) = (Raise FileNotFoundError, World new_shared primary).
Proof.
  apply (load_without_its_files (World new_shared primary)). reflexivity.
Defined.

(** Of three documents, a token in two of them and a token in one. *)
Lemma idf_of_two_in_three_and_one_in_three : (idf 3 2 <= idf 3 1)%R.
Proof. apply (rarer_tokens_weigh_more 3 1 2); lia. Defined.

(** The index of the one document [a b]: both tokens are in every
    document. *)
Lemma tfidf_of_one_fact_matrix_cells :
  ∃ T w',
    _get_tfidf_from_count_matrix one_fact_matrix (World new_shared primary)
      = (Ret T, w') ∧
    ∀ t d, t < 2 →
      (0 <= rcell T t d)%R ∧
      (rcell T t d = 0%R ↔
         cell one_fact_matrix t d = 0 ∨ (1 <= 2 * doc_count one_fact_matrix t)%nat).
Proof.
  apply (common_tokens_weigh_nothing (World new_shared primary) one_fact_matrix).
  - reflexivity.
  - discriminate.
Defined.

(** An agent with the count matrix of that index and no tf-idf matrix. *)
Lemma compute_tfidf_twice :
  let a := set_cache (set_count_matrix (Some one_fact_matrix)) primary in
  let w' := World new_shared
              (set_cache (set_tfidfs (Some (tfidf_of one_fact_matrix))) a) in
  compute_tfidf (World new_shared a) = (Ret (tfidf_of one_fact_matrix), w') ∧
  compute_tfidf w' = (Ret (tfidf_of one_fact_matrix), w').
Proof.
  apply (compute_tfidf_caches_its_result
           (World new_shared (set_cache (set_count_matrix (Some one_fact_matrix)) primary))
           one_fact_matrix).
  - reflexivity.
  - reflexivity.
  - discriminate.
Defined.

(** [__init__] where an index of one document was saved. *)
Lemma init_on_the_saved_index :
  ∃ s',
    __init__ None saved_shared = (Raise (AttributeError "num_docs"), s') ∧
    num_docs s' = 0.
Proof.
  apply (init_never_opens_a_saved_index None saved_shared one_fact_matrix).
  reflexivity.
Defined.


(** The new primary agent after it took in the fact [b a b]. *)
Lemma frequency_lists_after_b_a_b :
  let w := after words insertion_argsort sort_argpartition Act
             (after words insertion_argsort sort_argpartition
                (Observe {["text" := "b a b"]}) (World new_shared primary)) in
  length (freq_token (idx (me w))) = length (freq_freq (idx (me w))) ∧
  length (freq_fact_id (idx (me w))) = length (freq_freq (idx (me w))) ∧
  Forall (λ c, 0 < c) (freq_freq (idx (me w))).
Proof.
  apply (frequency_lists_stay_aligned words insertion_argsort sort_argpartition).
  do 2 apply reach_call.
  apply (reach_init _ _ _ None (Shared 0 false [] [] ∅ None None)).
  vm_compute. reflexivity.
Defined.

(** The vocabulary [{a: 0}] of a child, read by a primary agent that has
    no token yet. *)
Lemma vocabulary_of_one_token_is_translated :
  ∃ w' m',
    process_message 0 (MsgDict {["a" := 0]}) (World child_shared primary_of_one_child)
      = (Ret false, w') ∧
    child_token_map (link (me w')) = Some (<[0 := m']> [∅]) ∧
    (∀ tok tid, ({["a" := 0]} : gmap string nat) !! tok = Some tid →
       ∃ i, m' !! tid = Some i ∧ all_tokens (idx (me w')) !! tok = Some i) ∧
    (∀ t j, (∅ : gmap string nat) !! t = Some j →
            all_tokens (idx (me w')) !! t = Some j) ∧
    (dense (∅ : gmap string nat) → dense (all_tokens (idx (me w')))) ∧
    sh w' = child_shared ∧ freqs w' = ([], [], []).
Proof.
  apply (vocabulary_message_translates_ids 0 {["a" := 0]}
           (World child_shared primary_of_one_child) [∅] ∅).
  - reflexivity.
  - reflexivity.
  - intros t1 t2 i [<- _]%lookup_singleton_Some [<- _]%lookup_singleton_Some.
    reflexivity.
Defined.

(** The primary agent with one child that has not shut down yet. *)
Lemma merge_before_the_child_is_done :
  _process_child_data (World child_shared (set_link (set_comm_queues (Some [0])) primary))
  = (Block, World child_shared primary_of_one_child).
Proof.
  apply (merge_waits_for_an_announcement
           (World child_shared (set_link (set_comm_queues (Some [0])) primary)) 0 []);
    reflexivity.
Defined.

(** Messages on the queue of that child, whose vocabulary message has not
    come yet. *)
Lemma malformed_messages_of_one_child :
  let w := World child_shared primary_of_one_child in
  let wrong := RuntimeError
                 "TfidfRetrieverAgent: wrong data format send from child to master." in
  process_message 0 MsgOther w = (Raise wrong, w) ∧
  (∀ s, s ≠ END_OF_DATA → process_message 0 (MsgStr s) w = (Raise wrong, w)) ∧
  process_message 0 (MsgStr END_OF_DATA) w = (Ret true, w) ∧
  (∀ l, length l < 3 →
     process_message 0 (MsgList l) w
     = (Raise (ValueError "not enough values to unpack"), w)) ∧
  (∀ tid tids fids frs, (∅ : gmap nat nat) !! tid = None →
     process_message 0 (MsgList [tid :: tids; fids; frs]) w = (Raise KeyError, w)) ∧
  (∀ fids frs, process_message 0 (MsgList [[]; fids; frs]) w = (Ret false, w)).
Proof.
  apply (merge_rejects_malformed_messages 0 (World child_shared primary_of_one_child)
           [∅] ∅); reflexivity.
Defined.

(** The primary agent collects what its one child sent. *)
Lemma merge_of_one_idle_child :
  let w := World idle_child_sent (set_link (set_comm_queues (Some [0])) primary) in
  ∃ w',
    _process_child_data w = (Ret tt, w') ∧
    me w' = primary_of_one_child ∧
    sh w' = set_queues (queues (sh w')) (set_shared_queue [] idle_child_sent) ∧
    (∀ h, h ∈ [0] → queues (sh w') !! h = drop 3 <$> queues idle_child_sent !! h) ∧
    (∀ h, h ∉ [0] → queues (sh w') !! h = queues idle_child_sent !! h).
Proof.
  apply (merge_of_idle_children
           (World idle_child_sent (set_link (set_comm_queues (Some [0])) primary))
           [0] [0] [0] []).
  - reflexivity.
  - reflexivity.
  - reflexivity.
  - by repeat constructor.
  - apply NoDup_singleton.
  - intros h ->%list_elem_of_singleton. by exists [].
Defined.

(** Two records for the same token and document are summed. *)
Lemma csr_matrix_sums_two_records :
  ∃ m, csr_matrix [1; 2] [0; 0] [0; 0] (1, 1) = Ret m ∧
       shape m = (1, 1) ∧
       ∀ t d, cell m t d = record_sum (zip3 [0; 0] [0; 0] [1; 2]) t d.
Proof.
  apply (csr_matrix_sums [1; 2] [0; 0] [0; 0] (1, 1));
    [reflexivity|reflexivity|repeat constructor..].
Defined.

(** The first two ids of a new primary agent. *)
Lemma first_two_fact_ids :
  ∃ w1 w2,
    _new_fact_id (World new_shared primary) = (Ret 0, w1) ∧
    _new_fact_id w1 = (Ret 1, w2) ∧
    num_docs (sh w2) = 2 ∧
    Z.of_nat (num_docs (sh w1)) = c_int 1 ∧
    Z.of_nat (num_docs (sh w2)) = c_int (Z.of_nat (num_docs (sh w1)) + 1) ∧
    me w2 = primary.
Proof.
  apply (new_fact_ids_are_consecutive (World new_shared primary)). reflexivity.
Defined.

(** The query [a] with [max_results = 2] on an agent that loaded the index
    of five documents. *)
Lemma retrieve_two_of_five_documents :
  let w := after words insertion_argsort sort_argpartition Load
             (World five_fact_shared primary) in
  ∃ o w',
    retrieve words insertion_argsort sort_argpartition "a" 2 w = (o, w') ∧
    (∀ r, o = Ret r → r = []) ∧
    (∀ token, token ∈ words "a" →
       is_Some (all_tokens (idx (me w)) !! token) → ∀ r, o ≠ Ret r).
Proof.
  apply (retrieve_never_returns_the_best words insertion_argsort sort_argpartition
           (after words insertion_argsort sort_argpartition Load
              (World five_fact_shared primary)) "a" 2).
  apply reach_call.
  apply (reach_others _ _ _ five_fact_shared (World new_shared primary)).
  apply (reach_init _ _ _ None (Shared 0 false [] [] ∅ None None)).
  vm_compute. reflexivity.
Defined.

(** On that agent the call raises at [self.doc_freqs]. *)
Example retrieve_two_of_five_raises :
  fst (retrieve words insertion_argsort sort_argpartition "a" 2
         (after words insertion_argsort sort_argpartition Load
            (World five_fact_shared primary)))
  = Raise (AttributeError "doc_freqs").
Proof. reflexivity. Qed.
